(** * queuectl: job store, retry state machine and worker claim protocol

    A shallow embedding of the TypeScript sources

      - src/types/index.ts          (Job, JobState, QueueConfig, JobResult)
      - src/storage/JobStorage.ts   (the job store)
      - core/QueueManager.ts, core/ConfigManager.ts, core/JobExecutor.ts
      - src/workers/WorkerManager.ts, workers/Worker.ts

    Modelling conventions.

      - The jobs file is the list of job records it holds, in file order
        (an absent file reads as the empty list, as [readJobs] does).
        [JSON.stringify] drops properties whose value is [undefined], so an
        optional property is an [option]: [None] is "absent/undefined".
      - Numbers are integers ([Z]) and their arithmetic is exact; time
        stamps are milliseconds since the epoch, the value
        [new Date(s).getTime()] of the stored ISO string. A [Date] holds a
        time value of at most 8.64e15 ms on either side of the epoch or is
        invalid, and [toISOString] throws a [RangeError] on an invalid one.
        The one fraction of the program, [Math.pow] with a negative
        exponent, is kept as a fraction of integers.
      - Strings are sequences of code units below 256.
      - Every read of the wall clock ([new Date()], [Date.now()]) takes the
        next value of an arbitrary clock; every [uuidv4()] the next value of
        an arbitrary generator.
      - Lock acquisition and file I/O are assumed to succeed, and every
        storage method runs as one indivisible step: this is the most the
        lock of [JobStorage] can give.
      - The sources name the global [Deno], which a Deno runtime defines
        and Node does not: the runtime is part of the environment. *)

From Stdlib Require Import ZArith Lia Ascii String.
From stdpp Require Import base tactics option list strings relations sorting.

Local Open Scope Z_scope.

(** ** src/types/index.ts *)

Inductive JobState := PENDING | PROCESSING | COMPLETED | FAILED | DEAD.

Global Instance JobState_eq_dec : EqDecision JobState.
Proof. solve_decision. Defined.

Record Job := mkJob {
  id : string;
  command : string;
  state : JobState;
  attempts : Z;
  max_retries : Z;
  created_at : Z;
  updated_at : Z;
  next_retry_at : option Z;
  error_message : option string;
  output : option string;
  worker_id : option string
}.

(** [Partial<Job>]: every property may be missing from the object; a
    property of an optional field may also be present with the value
    [undefined] ([Some None]), which is how the callers clear a field. *)
Record PartialJob := mkPartial {
  p_id : option string;
  p_command : option string;
  p_state : option JobState;
  p_attempts : option Z;
  p_max_retries : option Z;
  p_created_at : option Z;
  p_updated_at : option Z;
  p_next_retry_at : option (option Z);
  p_error_message : option (option string);
  p_output : option (option string);
  p_worker_id : option (option string)
}.

Record QueueConfig := mkConfig {
  cfg_max_retries : Z;
  cfg_backoff_base : Z;
  cfg_worker_poll_interval : Z;
  cfg_graceful_shutdown_timeout : Z
}.

Record JobResult := mkResult {
  success : bool;
  res_output : option string;
  res_error : option string;
  exit_code : option Z
}.

(** [ConfigManager.DEFAULT_CONFIG] *)
Definition DEFAULT_CONFIG : QueueConfig :=
  {| cfg_max_retries := 3;
     cfg_backoff_base := 2;
     cfg_worker_poll_interval := 1000;
     cfg_graceful_shutdown_timeout := 30000 |}.

(** ** The persistent world and the monad of the asynchronous methods *)

Record World := mkWorld {
  jobs_file : list Job;   (* contents of jobs.json *)
  ticks : nat;            (* clock reads so far *)
  uuids : nat             (* identifiers drawn so far *)
}.

Inductive Result (A : Type) :=
  | Ok (a : A)
  | Throw (msg : string).
Arguments Ok {A} a.
Arguments Throw {A} msg.

Definition M (A : Type) : Type := World → Result A * World.

Global Instance M_ret : MRet M := λ A a w, (Ok a, w).

Global Instance M_bind : MBind M := λ A B k m w,
  match m w with
  | (Ok a, w') => k a w'
  | (Throw e, w') => (Throw e, w')
  end.

Definition throw {A} (msg : string) : M A := λ w, (Throw msg, w).

(** [try { body } catch (error) { handler }]; the handler gets the message
    of the error. *)
Definition try_catch {A} (body : M A) (handler : string → M A) : M A := λ w,
  match body w with
  | (Ok a, w') => (Ok a, w')
  | (Throw error, w') => handler error w'
  end.

(** ** Dates and powers *)

(** The largest time value of a [Date], in milliseconds. *)
Definition MAX_TIME_VALUE : Z := 8640000000000000.

(** [Math.pow(base, exponent)] as a fraction [(numerator, denominator)]:
    an integer for an exponent that is not negative, and
    [1 / base ^ (- exponent)] for a negative one, which is infinite (the
    denominator is 0) when [base] is 0. *)
Definition Math_pow (base exponent : Z) : Z * Z :=
  if bool_decide (0 ≤ exponent) then (base ^ exponent, 1)
  else (1, base ^ (- exponent)).

(** [new Date(now + delaySeconds * 1000)]: the time value of the date,
    [None] when the date is invalid. The date is invalid when the sum is
    not finite or lies outside the range of time values; a sum in range is
    truncated towards zero. *)
Definition new_Date_plus (now : Z) (delaySeconds : Z * Z) : option Z :=
  let (numerator, denominator) := delaySeconds in
  let sum := now * denominator + numerator * 1000 in
  if bool_decide (denominator = 0) then None
  else if bool_decide (Z.abs sum ≤ MAX_TIME_VALUE * Z.abs denominator)
  then Some (sum ÷ denominator)
  else None.

(** [date.toISOString()] *)
Definition toISOString (date : option Z) : M Z :=
  match date with
  | Some timeValue => mret timeValue
  | None => throw "Invalid time value"
  end.

(** The string of a caught error in a template literal, [`${error}`]: its
    name, a colon and its message. The one error raised inside the [try]
    block of [processJob] is the [RangeError] of [toISOString]. *)
Definition RangeError_toString (message : string) : string :=
  "RangeError: " +:+ message.

(** [{ ...job, ...updates, updated_at: now }] *)
Definition spread (job : Job) (updates : PartialJob) (now : Z) : Job :=
  {| id := default (id job) (p_id updates);
     command := default (command job) (p_command updates);
     state := default (state job) (p_state updates);
     attempts := default (attempts job) (p_attempts updates);
     max_retries := default (max_retries job) (p_max_retries updates);
     created_at := default (created_at job) (p_created_at updates);
     updated_at := now;
     next_retry_at := default (next_retry_at job) (p_next_retry_at updates);
     error_message := default (error_message job) (p_error_message updates);
     output := default (output job) (p_output updates);
     worker_id := default (worker_id job) (p_worker_id updates) |}.

(** [Array.prototype.sort(cmp)]: a stable sort; an element goes before the
    first element it does not compare greater than. *)
Fixpoint sort_insert {A} (cmp : A → A → Z) (x : A) (l : list A) : list A :=
  match l with
  | [] => [x]
  | y :: l' => if bool_decide (cmp x y ≤ 0) then x :: y :: l'
               else y :: sort_insert cmp x l'
  end.

Definition sort {A} (cmp : A → A → Z) (l : list A) : list A :=
  foldr (sort_insert cmp) [] l.

(** White space removed by [String.prototype.trim], among code units < 256:
    TAB, LF, VT, FF, CR, SP and NBSP. *)
Definition isWhiteSpace (c : ascii) : bool :=
  let n := Ascii.nat_of_ascii c in
  bool_decide (n = 9 ∨ n = 10 ∨ n = 11 ∨ n = 12 ∨ n = 13 ∨ n = 32 ∨ n = 160)%nat.

Fixpoint trimStart (s : string) : string :=
  match s with
  | EmptyString => EmptyString
  | String c s' => if isWhiteSpace c then trimStart s' else s
  end.

Definition trim (s : string) : string :=
  String.rev (trimStart (String.rev (trimStart s))).

(** ** workers/Worker.ts: the run-time state of a worker *)

Inductive WorkerState := idle | busy | stopping.

Global Instance WorkerState_eq_dec : EqDecision WorkerState.
Proof. solve_decision. Defined.

(** Where the asynchronous [processNextJob] of a worker is suspended:
    no call in flight (the next [poll] is due); inside [processJob] before
    the job is marked, holding the job returned by [getNextJob]; or on
    [executor.execute], holding the [jobId] argument of [processJob] and the
    record returned by its [getJob]. *)
Inductive Suspension :=
  | Ready
  | Claiming (job : Job)
  | Executing (jobId : string) (job : Job).

Record Worker := mkWorker {
  w_id : string;
  w_state : WorkerState;
  currentJobId : option string;
  jobsCompleted : nat;
  jobsFailed : nat;
  isRunning : bool;
  pollInterval : Z;
  suspended : Suspension
}.

(** [WorkerManager]: the store it shares with its workers, the [workers]
    map in insertion order, whether workers.pid exists, and the flag. *)
Record Pool := mkPool {
  world : World;
  workers : list Worker;
  pidFile : bool;
  isShuttingDown : bool
}.

(** The environment of the queue: the wall clock, the identifier generator,
    the configuration loaded by [ConfigManager], the command runner
    [JobExecutor.execute], and whether the runtime defines the global
    [Deno]. *)
Class Env := mkEnv {
  clock : nat → Z;
  uuid_gen : nat → string;
  config : QueueConfig;
  execute : string → JobResult;
  deno : bool
}.

Section Queue.

Context {env : Env}.

(** [new Date()] / [Date.now()] *)
Definition date_now : M Z := λ w,
  (Ok (clock (ticks w)),
   {| jobs_file := jobs_file w; ticks := S (ticks w); uuids := uuids w |}).

Definition uuidv4 : M string := λ w,
  (Ok (uuid_gen (uuids w)),
   {| jobs_file := jobs_file w; ticks := ticks w; uuids := S (uuids w) |}).

(** ** src/storage/JobStorage.ts *)

Definition readJobs : M (list Job) := λ w, (Ok (jobs_file w), w).

Definition writeJobs (jobs : list Job) : M () := λ w,
  (Ok (), {| jobs_file := jobs; ticks := ticks w; uuids := uuids w |}).

Definition addJob (job : Job) : M () :=
  jobs ← readJobs;
  writeJobs (jobs ++ [job]).

Definition updateJob (jobId : string) (updates : PartialJob) : M bool :=
  jobs ← readJobs;
  match list_find (λ j, id j = jobId) jobs with
  | None => mret false
  | Some (index, old) =>
      now ← date_now;
      writeJobs (<[index := spread old updates now]> jobs);;
      mret true
  end.

Definition getJob (jobId : string) : M (option Job) :=
  jobs ← readJobs;
  mret (snd <$> list_find (λ j, id j = jobId) jobs).

Definition getJobsByState (s : JobState) : M (list Job) :=
  jobs ← readJobs;
  mret (filter (λ j, state j = s) jobs).

(** The filter callback of [getNextPendingJob]. *)
Definition available (now : Z) (j : Job) : bool :=
  if bool_decide (state j ≠ PENDING) && bool_decide (state j ≠ FAILED)
  then false
  else match next_retry_at j with
       | Some t => bool_decide (t ≤ now)
       | None => true
       end.

Definition getNextPendingJob : M (option Job) :=
  jobs ← readJobs;
  now ← date_now;
  let availableJobs := filter (λ j, available now j) jobs in
  let sorted := sort (λ a b, created_at a - created_at b) availableJobs in
  mret (head sorted).

Definition deleteJob (jobId : string) : M bool :=
  jobs ← readJobs;
  let filtered := filter (λ j, id j ≠ jobId) jobs in
  if bool_decide (length filtered = length jobs) then mret false
  else writeJobs filtered;; mret true.

(** ** core/JobExecutor.ts *)

(** [validateCommand] returns [{ valid, error? }]; here the error message
    of a rejected command, [None] for [{ valid: true }]. *)
Definition validateCommand (command : string) : option string :=
  if bool_decide (command = "") || bool_decide (String.length (trim command) = 0%nat)
  then Some "Command cannot be empty"
  else if bool_decide (10000 < Z.of_nat (String.length command))
  then Some "Command is too long"
  else None.

(** ** core/QueueManager.ts *)

Definition enqueue (command : string) (maxRetries : option Z) : M Job :=
  match validateCommand command with
  | Some error => throw error
  | None =>
      let configMaxRetries := cfg_max_retries config in
      jobId ← uuidv4;
      created ← date_now;
      updated ← date_now;
      let job :=
        {| id := jobId;
           command := command;
           state := PENDING;
           attempts := 0;
           max_retries := match maxRetries with
                          | Some n => n
                          | None => configMaxRetries
                          end;
           created_at := created;
           updated_at := updated;
           next_retry_at := None;
           error_message := None;
           output := None;
           worker_id := None |} in
      addJob job;;
      mret job
  end.

Definition handleJobFailure (jobId : string) (errorMessage : string) : M () :=
  found ← getJob jobId;
  match found with
  | None => mret ()
  | Some job =>
      let newAttempts := attempts job + 1 in
      if bool_decide (newAttempts >= max_retries job) then
        (* Move to dead letter queue *)
        updateJob jobId
          {| p_id := None; p_command := None;
             p_state := Some DEAD;
             p_attempts := Some newAttempts;
             p_max_retries := None; p_created_at := None; p_updated_at := None;
             p_next_retry_at := None;
             p_error_message := Some (Some errorMessage);
             p_output := None;
             p_worker_id := Some None |};;
        mret ()
      else
        (* Schedule retry with exponential backoff *)
        let backoffBase := cfg_backoff_base config in
        let delaySeconds := Math_pow backoffBase newAttempts in
        now ← date_now;
        let nextRetryAt := new_Date_plus now delaySeconds in
        next_retry ← toISOString nextRetryAt;
        updateJob jobId
          {| p_id := None; p_command := None;
             p_state := Some FAILED;
             p_attempts := Some newAttempts;
             p_max_retries := None; p_created_at := None; p_updated_at := None;
             p_next_retry_at := Some (Some next_retry);
             p_error_message := Some (Some errorMessage);
             p_output := None;
             p_worker_id := Some None |};;
        mret ()
  end.

(** [processJob] up to its suspension on [executor.execute]: look the job
    up and mark it as processing. [None] is the early [return false]. *)
Definition processJob_begin (jobId workerId : string) : M (option Job) :=
  found ← getJob jobId;
  match found with
  | None => mret None
  | Some job =>
      updateJob jobId
        {| p_id := None; p_command := None;
           p_state := Some PROCESSING;
           p_attempts := None; p_max_retries := None;
           p_created_at := None; p_updated_at := None;
           p_next_retry_at := None; p_error_message := None; p_output := None;
           p_worker_id := Some (Some workerId) |};;
      mret (Some job)
  end.

(** [result.error || 'Unknown error'] *)
Definition error_or_unknown (result : JobResult) : string :=
  match res_error result with
  | Some e => if bool_decide (e = "") then "Unknown error" else e
  | None => "Unknown error"
  end.

(** [processJob] from the result of [executor.execute] on: the rest of
    its [try] block, and its [catch] block, which reports the failure once
    more. The runner itself never rejects. *)
Definition processJob_end (jobId : string) (result : JobResult) : M bool :=
  try_catch
    (if success result then
       updateJob jobId
         {| p_id := None; p_command := None;
            p_state := Some COMPLETED;
            p_attempts := None; p_max_retries := None;
            p_created_at := None; p_updated_at := None;
            p_next_retry_at := None; p_error_message := None;
            p_output := Some (res_output result);
            p_worker_id := Some None |};;
       mret true
     else
       handleJobFailure jobId (error_or_unknown result);;
       mret false)
    (λ error,
       handleJobFailure jobId ("Unexpected error: " +:+ RangeError_toString error);;
       mret false).

Definition processJob (jobId workerId : string) : M bool :=
  begun ← processJob_begin jobId workerId;
  match begun with
  | None => mret false
  | Some job => processJob_end jobId (execute (command job))
  end.

Definition getNextJob : M (option Job) := getNextPendingJob.

Definition listJobs (s : option JobState) : M (list Job) :=
  match s with
  | Some s => getJobsByState s
  | None => readJobs
  end.

Definition retryDeadJob (jobId : string) : M bool :=
  found ← getJob jobId;
  match found with
  | None => mret false
  | Some job =>
      if bool_decide (state job ≠ DEAD) then mret false
      else
        updateJob jobId
          {| p_id := None; p_command := None;
             p_state := Some PENDING;
             p_attempts := Some 0;
             p_max_retries := None; p_created_at := None; p_updated_at := None;
             p_next_retry_at := Some None;
             p_error_message := Some None;
             p_output := None;
             p_worker_id := None |};;
        mret true
  end.

(** The [for ... of] loop of [resetStuckJobs] over the jobs read at its
    start; every [updateJob] reads the file again. *)
Fixpoint resetStuckJobs_loop (jobs : list Job) (resetCount : nat) : M nat :=
  match jobs with
  | [] => mret resetCount
  | job :: rest =>
      if bool_decide (state job = PROCESSING) then
        updateJob (id job)
          {| p_id := None; p_command := None;
             p_state := Some PENDING;
             p_attempts := None; p_max_retries := None;
             p_created_at := None; p_updated_at := None;
             p_next_retry_at := None; p_error_message := None; p_output := None;
             p_worker_id := Some None |};;
        resetStuckJobs_loop rest (S resetCount)
      else resetStuckJobs_loop rest resetCount
  end.

Definition resetStuckJobs : M nat :=
  jobs ← readJobs;
  resetStuckJobs_loop jobs 0%nat.

(** ** workers/Worker.ts *)

(** [new Worker(queueManager)] *)
Definition newWorker : M Worker :=
  workerId ← uuidv4;
  mret {| w_id := workerId;
          w_state := idle;
          currentJobId := None;
          jobsCompleted := 0;
          jobsFailed := 0;
          isRunning := false;
          pollInterval := cfg_worker_poll_interval config;
          suspended := Ready |}.

(** [Worker.start]; the first [poll] is then due. *)
Definition worker_start (w : Worker) : Worker :=
  if isRunning w then w
  else {| w_id := w_id w;
          w_state := idle;
          currentJobId := currentJobId w;
          jobsCompleted := jobsCompleted w;
          jobsFailed := jobsFailed w;
          isRunning := true;
          pollInterval := pollInterval w;
          suspended := suspended w |}.

(** The counters and the [finally] block of [processNextJob]. *)
Definition settle (w : Worker) (succeeded : bool) : Worker :=
  {| w_id := w_id w;
     w_state := if isRunning w then idle else stopping;
     currentJobId := None;
     jobsCompleted := if succeeded then S (jobsCompleted w) else jobsCompleted w;
     jobsFailed := if succeeded then jobsFailed w else S (jobsFailed w);
     isRunning := isRunning w;
     pollInterval := pollInterval w;
     suspended := Ready |}.

(** One resumption of a worker: [poll] and [processNextJob] up to the
    call of [processJob]; [processJob] up to [executor.execute]; the rest
    of [processJob] and of [processNextJob]. A [processJob] that throws
    is caught by [processNextJob] and counted as a failed job. *)
Definition worker_resume (w : Worker) : M Worker :=
  match suspended w with
  | Ready =>
      if negb (isRunning w) then mret w
      else if bool_decide (w_state w ≠ idle) then mret w
      else
        next ← getNextJob;
        match next with
        | None => mret w
        | Some job =>
            mret {| w_id := w_id w;
                    w_state := busy;
                    currentJobId := Some (id job);
                    jobsCompleted := jobsCompleted w;
                    jobsFailed := jobsFailed w;
                    isRunning := isRunning w;
                    pollInterval := pollInterval w;
                    suspended := Claiming job |}
        end
  | Claiming job =>
      try_catch
        (begun ← processJob_begin (id job) (w_id w);
         match begun with
         | None => mret (settle w false)
         | Some found =>
             mret {| w_id := w_id w;
                     w_state := w_state w;
                     currentJobId := currentJobId w;
                     jobsCompleted := jobsCompleted w;
                     jobsFailed := jobsFailed w;
                     isRunning := isRunning w;
                     pollInterval := pollInterval w;
                     suspended := Executing (id job) found |}
         end)
        (λ error, mret (settle w false))
  | Executing jobId job =>
      try_catch
        (succeeded ← processJob_end jobId (execute (command job));
         mret (settle w succeeded))
        (λ error, mret (settle w false))
  end.

(** ** workers/WorkerManager.ts *)

(** [this.workers.set(worker.getId(), worker)] *)
Definition workers_set (w : Worker) (ws : list Worker) : list Worker :=
  match list_find (λ x, w_id x = w_id w) ws with
  | Some (i, _) => <[i := w]> ws
  | None => ws ++ [w]
  end.

Definition pool_isRunning (p : Pool) : bool :=
  bool_decide (0 < length (workers p))%nat || pidFile p.

(** The loop of [start] that creates and starts [count] workers. *)
Fixpoint spawn (count : nat) (ws : list Worker) : M (list Worker) :=
  match count with
  | O => mret ws
  | S n =>
      worker ← newWorker;
      spawn n (workers_set (worker_start worker) ws)
  end.

(** [setupShutdownHandlers]: its first statement that does anything is
    [Deno.addSignalListener(...)], a [ReferenceError] where [Deno] is not
    defined. *)
Definition setupShutdownHandlers : Result () :=
  if deno then Ok () else Throw "Deno is not defined".

(** [start]: the stuck jobs are reset, the workers created and started,
    the pid file written (with the time of the start, of which only the
    reading of the clock is kept), and only then the shutdown handlers set
    up. *)
Definition start (count : Z) (p : Pool) : Result () * Pool :=
  if bool_decide (count < 1) then
    (Throw "Worker count must be at least 1", p)
  else if pool_isRunning p then
    (Throw "Workers are already running. Stop them first.", p)
  else
    let run :=
      resetCount ← resetStuckJobs;
      ws ← spawn (Z.to_nat count) (workers p);
      started_at ← date_now;
      mret ws in
    match run (world p) with
    | (Ok ws, w') =>
        (setupShutdownHandlers,
         {| world := w'; workers := ws; pidFile := true;
            isShuttingDown := isShuttingDown p |})
    | (Throw e, w') =>
        (Throw e, {| world := w'; workers := workers p; pidFile := pidFile p;
                     isShuttingDown := isShuttingDown p |})
    end.

(** Any worker of the pool may be the next to resume: the interleavings
    of the workers over the shared store. *)
Inductive pool_step : Pool → Pool → Prop :=
  | step_resume p i w w' world' :
      workers p !! i = Some w →
      worker_resume w (world p) = (Ok w', world') →
      pool_step p {| world := world';
                     workers := <[i := w']> (workers p);
                     pidFile := pidFile p;
                     isShuttingDown := isShuttingDown p |}.

(** Worker [w] holds job [jobId]: it is busy executing it while the store
    shows the job as processing. *)
Definition holds (p : Pool) (w : Worker) (jobId : string) : Prop :=
  w ∈ workers p ∧
  w_state w = busy ∧
  currentJobId w = Some jobId ∧
  (∃ job, suspended w = Executing jobId job) ∧
  ∃ job, job ∈ jobs_file (world p) ∧ id job = jobId ∧ state job = PROCESSING.

End Queue.

(** ** Vocabulary of the specification *)

(** A field of the merged record is the given value when the partial
    object has the property, and the old value otherwise. *)
Definition replaces {A} (given : option A) (old new : A) : Prop :=
  match given with
  | Some v => new = v
  | None => new = old
  end.

(** Eligible job: pending or failed, with no retry time or one that has
    passed. *)
Definition eligible (now : Z) (j : Job) : Prop :=
  (state j = PENDING ∨ state j = FAILED) ∧
  (next_retry_at j = None ∨ ∃ t, next_retry_at j = Some t ∧ t ≤ now).

(** The invariant of the job record: [worker_id] is set exactly in
    Processing and [next_retry_at] exactly in Failed. *)
Definition job_invariant (j : Job) : Prop :=
  (is_Some (worker_id j) ↔ state j = PROCESSING) ∧
  (is_Some (next_retry_at j) ↔ state j = FAILED).

(** What the transitions do keep: [worker_id] is set exactly in Processing
    and a Failed job has its [next_retry_at]. *)
Definition job_invariant_kept (j : Job) : Prop :=
  (is_Some (worker_id j) ↔ state j = PROCESSING) ∧
  (state j = FAILED → is_Some (next_retry_at j)).

(** The date for which the failure handler, reading the clock at [now],
    schedules the next run of a job: [None] when that date is invalid. *)
Definition retry_date {env : Env} (now : Z) (job : Job) : option Z :=
  new_Date_plus now (Math_pow (cfg_backoff_base config) (attempts job + 1)).

(** A run of consecutive failure reports on one job. *)
Fixpoint reportFailures {env : Env} (jobId : string) (errors : list string) : M () :=
  match errors with
  | [] => mret ()
  | e :: rest => handleJobFailure jobId e;; reportFailures jobId rest
  end.

(** What orphan recovery does to one record: a Processing job becomes
    Pending without [worker_id] (and with a new [updated_at]), any other job
    stays as it is. *)
Definition orphan_reset (old new : Job) : Prop :=
  if bool_decide (state old = PROCESSING) then
    state new = PENDING ∧ worker_id new = None ∧
    id new = id old ∧ command new = command old ∧
    attempts new = attempts old ∧ max_retries new = max_retries old ∧
    created_at new = created_at old ∧ next_retry_at new = next_retry_at old ∧
    error_message new = error_message old ∧ output new = output old
  else new = old.

(** Resuming the [i]-th worker of the pool, as a function; a schedule is
    the list of the workers resumed, in order. *)
Definition resume_at {env : Env} (i : nat) (p : Pool) : Pool :=
  match workers p !! i with
  | None => p
  | Some w =>
      match worker_resume w (world p) with
      | (Ok w', world') =>
          {| world := world'; workers := <[i := w']> (workers p);
             pidFile := pidFile p; isShuttingDown := isShuttingDown p |}
      | (Throw _, _) => p
      end
  end.

Definition run_schedule {env : Env} (schedule : list nat) (p : Pool) : Pool :=
  foldl (λ q i, resume_at i q) p schedule.

Global Instance job_invariant_dec j : Decision (job_invariant j).
Proof. unfold job_invariant. apply _. Defined.

Global Instance job_invariant_kept_dec j : Decision (job_invariant_kept j).
Proof. unfold job_invariant_kept. apply _. Defined.

(** A worker as [WorkerManager.start] leaves it: running, idle, with no
    job and its first poll due. *)
Definition just_started (wk : Worker) : Prop :=
  isRunning wk = true ∧ w_state wk = idle ∧
  currentJobId wk = None ∧ suspended wk = Ready.

(** ** A concrete environment and concrete runs

    The clock advances one second per reading, identifiers are the letters
    A, B, C, ..., the configuration is the default one, the command
    runner succeeds on [echo ok] and fails on every other command, with the
    results [JobExecutor.execute] builds for exit codes 0 and 1, and the
    runtime is Deno. *)
Definition sample_env : Env :=
  {| clock := λ n, 1000 * Z.of_nat n;
     uuid_gen := λ n, String (ascii_of_nat (65 + n)) EmptyString;
     config := DEFAULT_CONFIG;
     execute := λ cmd,
       if bool_decide (cmd = "echo ok")
       then {| success := true; res_output := Some "ok";
               res_error := None; exit_code := Some 0 |}
       else {| success := false; res_output := Some "";
               res_error := Some "Command exited with code 1";
               exit_code := Some 1 |};
     deno := true |}.

Definition empty_world : World := {| jobs_file := []; ticks := 0; uuids := 0 |}.

Definition stopped_pool (w : World) : Pool :=
  {| world := w; workers := []; pidFile := false; isShuttingDown := false |}.

(** [new WorkerManager(dataDir)] over a data directory: no workers yet,
    and the pid file that the directory holds. *)
Definition stopped_pool_with_pidFile (w : World) (pid : bool) : Pool :=
  {| world := w; workers := []; pidFile := pid; isShuttingDown := false |}.

(** The store after [queuectl enqueue "exit 1"] on an empty data directory:
    one Pending job, of id A. *)
Definition one_failing_job : World :=
  snd (enqueue (env := sample_env) "exit 1" None empty_world).

(** ... and after [queuectl enqueue "exit 1" --retries 0]. *)
Definition one_job_without_retries : World :=
  snd (enqueue (env := sample_env) "exit 1" (Some 0) empty_world).

(** ... and after [queuectl enqueue '{"command":"exit 1","max_retries":2}']. *)
Definition one_job_with_two_retries : World :=
  snd (enqueue (env := sample_env) "exit 1" (Some 2) empty_world).

(** [queuectl worker start --count 1] (worker B) and [--count 2] (workers
    B and C) over that store. *)
Definition one_worker : Pool :=
  snd (start (env := sample_env) 1 (stopped_pool one_failing_job)).

Definition two_workers : Pool :=
  snd (start (env := sample_env) 2 (stopped_pool one_failing_job)).

(** The single worker after it has claimed the job, run it and reported
    the failure, and polled again once the retry time has come. *)
Definition failed_once_reclaimed : Pool :=
  run_schedule (env := sample_env) [0; 0; 0; 0]%nat one_worker.

(** A store left by a crash: job A was being processed by a worker W. *)
Definition crashed_store : World :=
  snd (processJob_begin (env := sample_env) "A" "W" one_failing_job).

(** The record [enqueue] stores in that environment for ["exit 1"]. *)
Definition enqueued_job (maxRetries : Z) : Job :=
  {| id := "A"; command := "exit 1"; state := PENDING;
     attempts := 0; max_retries := maxRetries;
     created_at := 0; updated_at := 1000;
     next_retry_at := None; error_message := None; output := None;
     worker_id := None |}.

(** Job A as [crashed_store] holds it, and the store after the job
    enqueued without retries has run once and failed. *)
Definition claimed_job : Job :=
  {| id := "A"; command := "exit 1"; state := PROCESSING;
     attempts := 0; max_retries := 3;
     created_at := 0; updated_at := 2000;
     next_retry_at := None; error_message := None; output := None;
     worker_id := Some "W" |}.

Definition dead_store : World :=
  snd (processJob (env := sample_env) "A" "B" one_job_without_retries).

(** The store after the first failure report on the job enqueued with two
    retries. *)
Definition failed_once : World :=
  snd (reportFailures (env := sample_env) "A" ["first"] one_job_with_two_retries).

(** The same environment after
    [queuectl config set backoff_base 10000000000000], and one worker
    started in it over the store with job A. *)
Definition huge_backoff_env : Env :=
  {| clock := clock (Env := sample_env);
     uuid_gen := uuid_gen (Env := sample_env);
     config := {| cfg_max_retries := 3;
                  cfg_backoff_base := 10000000000000;
                  cfg_worker_poll_interval := 1000;
                  cfg_graceful_shutdown_timeout := 30000 |};
     execute := execute (Env := sample_env);
     deno := true |}.

Definition one_worker_huge_backoff : Pool :=
  snd (start (env := huge_backoff_env) 1 (stopped_pool one_failing_job)).

(** The same environment under Node, where [Deno] is not defined. *)
Definition node_env : Env :=
  {| clock := clock (Env := sample_env);
     uuid_gen := uuid_gen (Env := sample_env);
     config := DEFAULT_CONFIG;
     execute := execute (Env := sample_env);
     deno := false |}.


(** A jobs file in which the record of the job being processed appears
    twice. *)
Definition duplicate_store : World :=
  {| jobs_file := [claimed_job; claimed_job]; ticks := 3; uuids := 1 |}.

(** ** The remaining methods of the store, the manager and the pool *)

(** [stats[job.state]++] on a [Record<JobState, number>]. *)
Definition stats_incr (stats : JobState → nat) (s : JobState) : JobState → nat :=
  λ s', if decide (s' = s) then S (stats s') else stats s'.

Record QueueStats := mkStats {
  pending : nat;
  processing : nat;
  completed : nat;
  failed : nat;
  dead : nat;
  active_workers : nat
}.

(** The number of records of a collection that are in a given state. *)
Definition count_state (s : JobState) (jobs : list Job) : nat :=
  length (filter (λ j, state j = s) jobs).

(** The total that [queuectl status] prints under its table. *)
Definition status_total (stats : QueueStats) : nat :=
  (pending stats + processing stats + completed stats + failed stats + dead stats)%nat.

Section Maintenance.

Context {env : Env}.

(** [JobStorage.getStats] *)
Definition getStats : M (JobState → nat) :=
  jobs ← readJobs;
  mret (foldl (λ stats job, stats_incr stats (state job)) (λ _, 0%nat) jobs).

(** [QueueManager.getStats] *)
Definition QueueManager_getStats : M QueueStats :=
  stats ← getStats;
  mret {| pending := stats PENDING + stats FAILED;
          processing := stats PROCESSING;
          completed := stats COMPLETED;
          failed := stats FAILED;
          dead := stats DEAD;
          active_workers := 0 |}.

(** The filter callback of [cleanupOldJobs]. *)
Definition recent_or_unfinished (cutoffDate : Z) (j : Job) : bool :=
  if bool_decide (state j ≠ COMPLETED) then true
  else bool_decide (cutoffDate < updated_at j).

(** [JobStorage.cleanupOldJobs]. [setDate now daysOld] is the time stamp of
    [d.setDate(d.getDate() - daysOld)] for [d] at [now]: the same local time
    of day, [daysOld] calendar days earlier. *)
Definition cleanupOldJobs (setDate : Z → Z → Z) (daysOld : Z) : M nat :=
  jobs ← readJobs;
  today ← date_now;
  let cutoffDate := setDate today daysOld in
  let filtered := filter (λ j, recent_or_unfinished cutoffDate j) jobs in
  let removed := (length jobs - length filtered)%nat in
  if bool_decide (0 < removed)%nat then writeJobs filtered;; mret removed
  else mret removed.

(** [updateJob] up to its call of [writeJobs]: the array it is about to
    write, [None] when it returns [false] without writing. [readJobs] and
    [writeJobs] take and release the lock each on its own. *)
Definition updateJob_prepare (jobId : string) (updates : PartialJob)
  : M (option (list Job)) :=
  jobs ← readJobs;
  match list_find (λ j, id j = jobId) jobs with
  | None => mret None
  | Some (index, old) =>
      now ← date_now;
      mret (Some (<[index := spread old updates now]> jobs))
  end.

(** The assignments of [Worker.stop], before it waits for the current job. *)
Definition worker_stop_begin (w : Worker) : Worker :=
  {| w_id := w_id w;
     w_state := stopping;
     currentJobId := currentJobId w;
     jobsCompleted := jobsCompleted w;
     jobsFailed := jobsFailed w;
     isRunning := false;
     pollInterval := pollInterval w;
     suspended := suspended w |}.

(** [WorkerManager.stop] up to its wait for the workers: [None] is the
    early return when the manager has no worker. *)
Definition stop_begin (p : Pool) : option Pool :=
  if bool_decide (length (workers p) = 0%nat) then None
  else Some {| world := world p;
               workers := worker_stop_begin <$> workers p;
               pidFile := pidFile p;
               isShuttingDown := true |}.

(** [WorkerManager.stop] after the wait: [workers.clear()] and
    [removePidFile()]. *)
Definition stop_end (p : Pool) : Pool :=
  {| world := world p; workers := []; pidFile := false;
     isShuttingDown := isShuttingDown p |}.

End Maintenance.

(** A worker between two resumptions: idle without a job while no call is
    in flight, busy with the job it selected otherwise. *)
Definition worker_consistent (wk : Worker) : Prop :=
  isRunning wk = true ∧
  match suspended wk with
  | Ready => w_state wk = idle ∧ currentJobId wk = None
  | Claiming job => w_state wk = busy ∧ currentJobId wk = Some (id job)
  | Executing jobId job =>
      w_state wk = busy ∧ currentJobId wk = Some jobId ∧ id job = jobId
  end.

(** What no transition of a stored job changes. *)
Definition identity (j : Job) : string * string * Z * Z :=
  (id j, command j, max_retries j, created_at j).

(** A method keeps the identities of the stored records, in their order,
    whether it returns or throws. *)
Definition keeps_identity {A} (m : M A) : Prop :=
  ∀ w, identity <$> jobs_file (snd (m w)) = identity <$> jobs_file w.

(** A method keeps a property of the stored records, whether it returns or
    throws. *)
Definition keeps {A} (Q : Job → Prop) (m : M A) : Prop :=
  ∀ w, Forall Q (jobs_file w) → Forall Q (jobs_file (snd (m w))).

(** The retry accounting of a record: attempts are never negative, a
    Failed job has failed at least once and has attempts left, a Dead job
    has failed at least once and has none left. *)
Definition retry_accounting (j : Job) : Prop :=
  0 ≤ attempts j ∧
  (state j = FAILED → 1 ≤ attempts j ∧ attempts j < max_retries j) ∧
  (state j = DEAD → 1 ≤ attempts j ∧ max_retries j ≤ attempts j).

(** [jobs.slice(0, limit)], [None] being the [NaN] that [parseInt] gives
    for an option that is not a number. *)
Definition slice_to {A} (limit : option Z) (l : list A) : list A :=
  match limit with
  | None => []
  | Some n =>
      if bool_decide (n < 0) then take (Z.to_nat (Z.of_nat (length l) + n)) l
      else take (Z.to_nat n) l
  end.

(** The rows that [queuectl list --state s --limit n] prints, top down. *)
Definition cli_list {env : Env} (s : option JobState) (limit : option Z)
  : M (list Job) :=
  jobs ← listJobs s;
  if bool_decide (length jobs = 0%nat) then mret []
  else
    let sorted := sort (λ a b, created_at b - created_at a) jobs in
    mret (slice_to limit sorted).

(** A string that consists of white space only. *)
Fixpoint blank (s : string) : bool :=
  match s with
  | EmptyString => true
  | String c s' => isWhiteSpace c && blank s'
  end.

(** ** The lock file of [JobStorage], across processes

    Every process that calls a storage method runs [acquireLock], whose
    [existsSync] and [writeFileSync] are two system calls, then its critical
    section, then [releaseLock]. When [acquireLock] gives up, the [catch]
    block of [readJobs] and [writeJobs] runs [releaseLock] all the same. *)

Inductive LockPhase :=
  | Outside       (* not in a storage method *)
  | Polling       (* in the loop of acquireLock, before existsSync *)
  | SawNoLock     (* existsSync returned false, writeFileSync is next *)
  | Critical.     (* lock file written, reading or writing jobs.json *)

Record LockState := mkLockState {
  lockFile : option nat;        (* the pid in jobs.lock, when it exists *)
  phases : list LockPhase       (* one per process, by pid *)
}.

(** [releaseLock]: [if (existsSync(lockFile)) unlinkSync(lockFile)], with
    no look at the pid the file holds. *)
Definition releaseLock (s : LockState) : option nat :=
  match lockFile s with
  | Some _ => None
  | None => None
  end.

Inductive lock_step : LockState → LockState → Prop :=
  | lock_enter s pid :
      phases s !! pid = Some Outside →
      lock_step s {| lockFile := lockFile s; phases := <[pid := Polling]> (phases s) |}
  | lock_exists_false s pid :
      phases s !! pid = Some Polling →
      lockFile s = None →
      lock_step s {| lockFile := lockFile s; phases := <[pid := SawNoLock]> (phases s) |}
  | lock_exists_true s pid owner :
      phases s !! pid = Some Polling →
      lockFile s = Some owner →
      lock_step s s
  | lock_timeout s pid owner :
      phases s !! pid = Some Polling →
      lockFile s = Some owner →
      lock_step s {| lockFile := releaseLock s; phases := <[pid := Outside]> (phases s) |}
  | lock_write s pid :
      phases s !! pid = Some SawNoLock →
      lock_step s {| lockFile := Some pid; phases := <[pid := Critical]> (phases s) |}
  | lock_release s pid :
      phases s !! pid = Some Critical →
      lock_step s {| lockFile := releaseLock s; phases := <[pid := Outside]> (phases s) |}.

(** A store with two Pending jobs created in the same millisecond; two
    processes outside the store; a process in its critical section with two
    others waiting. *)
Definition second_job : Job :=
  {| id := "B"; command := "echo ok"; state := PENDING;
     attempts := 0; max_retries := 3;
     created_at := 0; updated_at := 0;
     next_retry_at := None; error_message := None; output := None;
     worker_id := None |}.

Definition tied_store : World :=
  {| jobs_file := [enqueued_job 3; second_job]; ticks := 2; uuids := 2 |}.

Definition two_processes : LockState :=
  {| lockFile := None; phases := [Outside; Outside] |}.

Definition one_holder_two_waiting : LockState :=
  {| lockFile := Some 0%nat; phases := [Critical; Polling; Polling] |}.

(** An identifier generator that never repeats itself: the [n]-th
    identifier is [n] times the letter w. *)
Fixpoint tally (n : nat) : string :=
  match n with
  | O => EmptyString
  | S n => String "w" (tally n)
  end.

Definition tally_env : Env :=
  {| clock := clock (Env := sample_env);
     uuid_gen := tally;
     config := DEFAULT_CONFIG;
     execute := execute (Env := sample_env);
     deno := true |}.

(** ** Properties *)

Section Properties.

Context {env : Env}.

Implicit Types (w : World) (job : Job) (jobId : string).

Lemma updateJob_run jobId updates w :
  updateJob jobId updates w =
  match list_find (λ j, id j = jobId) (jobs_file w) with
  | None => (Ok false, w)
  | Some (index, old) =>
      (Ok true,
       {| jobs_file := <[index := spread old updates (clock (ticks w))]> (jobs_file w);
          ticks := S (ticks w);
          uuids := uuids w |})
  end.
Proof.
  unfold updateJob, readJobs, mbind, M_bind; simpl.
  destruct (list_find _ _) as [[index old]|]; reflexivity.
Qed.

Lemma getJob_run jobId w :
  getJob jobId w = (Ok (snd <$> list_find (λ j, id j = jobId) (jobs_file w)), w).
Proof. reflexivity. Qed.

Lemma addJob_run job w :
  addJob job w =
  (Ok (), {| jobs_file := jobs_file w ++ [job]; ticks := ticks w; uuids := uuids w |}).
Proof. reflexivity. Qed.

Lemma find_by_id_Some jobId (jobs : list Job) index old :
  list_find (λ j, id j = jobId) jobs = Some (index, old) →
  jobs !! index = Some old ∧ id old = jobId ∧
  ∀ k j, jobs !! k = Some j → (k < index)%nat → id j ≠ jobId.
Proof. intros Hfind. by apply list_find_Some in Hfind. Qed.

Lemma find_by_id_present jobId (jobs : list Job) :
  (∃ j, j ∈ jobs ∧ id j = jobId) →
  ∃ index old, list_find (λ j, id j = jobId) jobs = Some (index, old).
Proof.
  intros (j & Hin & Hid).
  destruct (list_find_elem_of (λ j, id j = jobId) jobs j Hin Hid) as [[index old] Hfind].
  eauto.
Qed.

Lemma find_by_id_absent jobId (jobs : list Job) :
  (∀ j, j ∈ jobs → id j ≠ jobId) →
  list_find (λ j, id j = jobId) jobs = None.
Proof. intros Hnone. apply list_find_None, Forall_forall. exact Hnone. Qed.

Lemma spread_replaces old updates now :
  let new := spread old updates now in
  replaces (p_id updates) (id old) (id new) ∧
  replaces (p_command updates) (command old) (command new) ∧
  replaces (p_state updates) (state old) (state new) ∧
  replaces (p_attempts updates) (attempts old) (attempts new) ∧
  replaces (p_max_retries updates) (max_retries old) (max_retries new) ∧
  replaces (p_created_at updates) (created_at old) (created_at new) ∧
  replaces (p_next_retry_at updates) (next_retry_at old) (next_retry_at new) ∧
  replaces (p_error_message updates) (error_message old) (error_message new) ∧
  replaces (p_output updates) (output old) (output new) ∧
  replaces (p_worker_id updates) (worker_id old) (worker_id new) ∧
  updated_at new = now.
Proof.
  destruct updates as [[?|] [?|] [?|] [?|] [?|] [?|] ? [?|] [?|] [?|] [?|]];
    simpl; repeat split.
Qed.

(** C9. [updateJob]: when a record with the id is present, the first such
    record gets exactly the given fields replaced and [updated_at] set to
    the time of the call, every other position of the collection keeps its
    record, and the result is [true]; when no record has the id, the result
    is [false] and the world is unchanged. *)
Theorem updateJob_frame jobId updates w :
  ((∃ j, j ∈ jobs_file w ∧ id j = jobId) →
    ∃ index old new w',
      updateJob jobId updates w = (Ok true, w') ∧
      jobs_file w !! index = Some old ∧ id old = jobId ∧
      (∀ k j, jobs_file w !! k = Some j → (k < index)%nat → id j ≠ jobId) ∧
      jobs_file w' !! index = Some new ∧
      (∀ k, k ≠ index → jobs_file w' !! k = jobs_file w !! k) ∧
      length (jobs_file w') = length (jobs_file w) ∧
      replaces (p_id updates) (id old) (id new) ∧
      replaces (p_command updates) (command old) (command new) ∧
      replaces (p_state updates) (state old) (state new) ∧
      replaces (p_attempts updates) (attempts old) (attempts new) ∧
      replaces (p_max_retries updates) (max_retries old) (max_retries new) ∧
      replaces (p_created_at updates) (created_at old) (created_at new) ∧
      replaces (p_next_retry_at updates) (next_retry_at old) (next_retry_at new) ∧
      replaces (p_error_message updates) (error_message old) (error_message new) ∧
      replaces (p_output updates) (output old) (output new) ∧
      replaces (p_worker_id updates) (worker_id old) (worker_id new) ∧
      updated_at new = clock (ticks w)) ∧
  ((∀ j, j ∈ jobs_file w → id j ≠ jobId) →
    updateJob jobId updates w = (Ok false, w)).
Proof.
  split.
  - intros Hpresent.
    destruct (find_by_id_present _ _ Hpresent) as (index & old & Hfind).
    destruct (find_by_id_Some _ _ _ _ Hfind) as (Hlook & Hid & Hfirst).
    exists index, old, (spread old updates (clock (ticks w))).
    eexists. rewrite updateJob_run, Hfind. split; [reflexivity|]. simpl.
    pose proof (spread_replaces old updates (clock (ticks w))) as Hrep.
    simpl in Hrep. destruct_and!.
    split_and!; try done.
    + apply list_lookup_insert_eq. by eapply lookup_lt_Some.
    + intros k Hk. by apply list_lookup_insert_ne.
    + apply length_insert.
  - intros Habsent. rewrite updateJob_run.
    by rewrite (find_by_id_absent _ _ Habsent).
Qed.

(** C8 (as the code has it). [addJob] has no duplicate check: it always
    succeeds and puts the record at the end of the collection, keeping
    every earlier record in place. When the id was already present the
    collection then holds both records and a lookup by id still returns
    the earlier one; when it was not, the lookup returns the new record. *)
Theorem addJob_always_appends job w :
  ∃ w',
    addJob job w = (Ok (), w') ∧
    jobs_file w' = jobs_file w ++ [job] ∧
    (∀ k j, jobs_file w !! k = Some j → jobs_file w' !! k = Some j) ∧
    jobs_file w' !! length (jobs_file w) = Some job ∧
    ((∃ j, j ∈ jobs_file w ∧ id j = id job) →
       fst (getJob (id job) w') = fst (getJob (id job) w)) ∧
    ((∀ j, j ∈ jobs_file w → id j ≠ id job) →
       fst (getJob (id job) w') = Ok (Some job)).
Proof.
  eexists. rewrite addJob_run. split; [reflexivity|]. simpl.
  split_and!.
  - done.
  - intros k j Hk. by apply lookup_app_l_Some.
  - by rewrite list_lookup_middle.
  - intros Hpresent.
    destruct (find_by_id_present _ _ Hpresent) as (index & old & Hfind).
    f_equal. f_equal.
    by rewrite (list_find_app_l _ _ [job] _ _ Hfind), Hfind.
  - intros Habsent. f_equal. f_equal.
    rewrite list_find_app_r by by apply find_by_id_absent.
    simpl. by rewrite decide_True.
Qed.

(** *** The next job to run *)

Lemma available_eligible now job : available now job = true ↔ eligible now job.
Proof.
  unfold available, eligible.
  destruct (state job); simpl; destruct (next_retry_at job) as [t|];
    rewrite ?bool_decide_eq_true; split;
    try (intros [[?|?] _]; discriminate); try discriminate; try done.
  - intros Ht. split; [by left|]. right. eauto.
  - intros [_ [?|(t' & [= <-] & ?)]]; done.
  - intros _. split; [by left|by left].
  - intros Ht. split; [by right|]. right. eauto.
  - intros [_ [?|(t' & [= <-] & ?)]]; done.
  - intros _. split; [by right|by left].
Qed.

Section Sorting.

Context {A : Type} (cmp : A → A → Z).

Lemma head_sort_insert x (l : list A) :
  head (sort_insert cmp x l) =
  Some (match head l with
        | Some y => if bool_decide (cmp x y ≤ 0) then x else y
        | None => x
        end).
Proof. destruct l as [|y l]; simpl; [done|]. by case_bool_decide. Qed.

Lemma head_sort_nil (l : list A) : head (sort cmp l) = None ↔ l = [].
Proof.
  destruct l as [|x l]; simpl; [done|].
  rewrite head_sort_insert. split; discriminate.
Qed.

(** The head of the sorted array is an element that compares less than
    or equal to every element, when the comparison is a difference of
    keys. *)
Lemma head_sort_least (key : A → Z) (l : list A) x :
  (∀ a b, cmp a b = key a - key b) →
  head (sort cmp l) = Some x →
  x ∈ l ∧ ∀ y, y ∈ l → key x ≤ key y.
Proof.
  intros Hcmp. revert x. induction l as [|a l IH]; intros x; simpl; [done|].
  rewrite head_sort_insert.
  destruct (head (sort cmp l)) as [y|] eqn:Hhead.
  - destruct (IH y eq_refl) as [Hy Hleast].
    case_bool_decide as Hle; rewrite Hcmp in Hle; intros [= <-].
    + split; [left|]. intros z [->|Hz]%elem_of_cons; [lia|].
      specialize (Hleast z Hz). lia.
    + split; [by right|]. intros z [->|Hz]%elem_of_cons; [lia|].
      by apply Hleast.
  - apply head_sort_nil in Hhead as ->. intros [= <-].
    split; [left|]. by intros z ->%list_elem_of_singleton.
Qed.

End Sorting.

Lemma getNextPendingJob_run w :
  getNextPendingJob w =
  (Ok (head (sort (λ a b, created_at a - created_at b)
               (filter (λ j, available (clock (ticks w)) j) (jobs_file w)))),
   {| jobs_file := jobs_file w; ticks := S (ticks w); uuids := uuids w |}).
Proof. reflexivity. Qed.

Lemma getNextPendingJob_Some w job :
  fst (getNextPendingJob w) = Ok (Some job) →
  job ∈ jobs_file w ∧ eligible (clock (ticks w)) job.
Proof.
  rewrite getNextPendingJob_run. simpl. intros [= Hhead].
  apply (head_sort_least _ created_at) in Hhead as [Hin _]; [|done].
  apply list_elem_of_filter in Hin as [Hav Hin].
  split; [done|]. by apply available_eligible, Is_true_true.
Qed.

(** C5. [getNextPendingJob] reads the clock once; the job it returns is a
    record of the collection that is eligible at that time (Pending or
    Failed, retry time unset or passed) and no eligible record has an
    earlier [created_at]; it returns nothing exactly when the collection
    has no eligible record. The collection is not changed. *)
Theorem getNextPendingJob_fifo w :
  ∃ r w',
    getNextPendingJob w = (Ok r, w') ∧
    jobs_file w' = jobs_file w ∧
    (∀ job, r = Some job →
       job ∈ jobs_file w ∧ eligible (clock (ticks w)) job ∧
       ∀ j, j ∈ jobs_file w → eligible (clock (ticks w)) j →
            created_at job ≤ created_at j) ∧
    (r = None ↔ ∀ j, j ∈ jobs_file w → ¬ eligible (clock (ticks w)) j).
Proof.
  do 2 eexists. rewrite getNextPendingJob_run. split; [reflexivity|]. simpl.
  split; [done|]. split.
  - intros job Hhead.
    apply (head_sort_least _ created_at) in Hhead as [Hin Hleast]; [|done].
    apply list_elem_of_filter in Hin as [Hav Hin].
    apply Is_true_true, available_eligible in Hav.
    split_and!; [done..|].
    intros j Hj Hel. apply Hleast, list_elem_of_filter. split; [|done].
    by apply Is_true_true, available_eligible.
  - rewrite head_sort_nil. split.
    + intros Hnil j Hj Hel.
      assert (j ∈ filter (λ j, available (clock (ticks w)) j) (jobs_file w)) as Hin.
      { apply list_elem_of_filter. split; [|done].
        by apply Is_true_true, available_eligible. }
      rewrite Hnil in Hin. by apply not_elem_of_nil in Hin.
    + intros Hnone.
      destruct (filter _ _) as [|j l] eqn:Hf; [done|].
      assert (j ∈ filter (λ j, available (clock (ticks w)) j) (jobs_file w)) as Hin
        by (rewrite Hf; left).
      apply list_elem_of_filter in Hin as [Hav Hj].
      destruct (Hnone j Hj). by apply available_eligible, Is_true_true.
Qed.

(** *** The retry state machine *)

Lemma find_by_id_insert jobId (jobs : list Job) index old new :
  list_find (λ j, id j = jobId) jobs = Some (index, old) →
  id new = jobId →
  list_find (λ j, id j = jobId) (<[index := new]> jobs) = Some (index, new).
Proof.
  intros (Hlook & _ & Hfirst)%list_find_Some Hid.
  apply list_find_Some. split_and!; [|done|].
  - apply list_lookup_insert_eq. by eapply lookup_lt_Some.
  - intros k j Hk Hlt. rewrite list_lookup_insert_ne in Hk by lia. eauto.
Qed.

Lemma handleJobFailure_run jobId errorMessage w :
  handleJobFailure jobId errorMessage w =
  match list_find (λ j, id j = jobId) (jobs_file w) with
  | None => (Ok (), w)
  | Some (index, job) =>
      if bool_decide (attempts job + 1 >= max_retries job) then
        (Ok (),
         {| jobs_file :=
              <[index := {| id := id job; command := command job;
                            state := DEAD;
                            attempts := attempts job + 1;
                            max_retries := max_retries job;
                            created_at := created_at job;
                            updated_at := clock (ticks w);
                            next_retry_at := next_retry_at job;
                            error_message := Some errorMessage;
                            output := output job;
                            worker_id := None |}]> (jobs_file w);
            ticks := S (ticks w);
            uuids := uuids w |})
      else
        match retry_date (clock (ticks w)) job with
        | Some next_retry =>
            (Ok (),
             {| jobs_file :=
                  <[index := {| id := id job; command := command job;
                                state := FAILED;
                                attempts := attempts job + 1;
                                max_retries := max_retries job;
                                created_at := created_at job;
                                updated_at := clock (S (ticks w));
                                next_retry_at := Some next_retry;
                                error_message := Some errorMessage;
                                output := output job;
                                worker_id := None |}]> (jobs_file w);
                ticks := S (S (ticks w));
                uuids := uuids w |})
        | None =>
            (Throw "Invalid time value",
             {| jobs_file := jobs_file w; ticks := S (ticks w); uuids := uuids w |})
        end
  end.
Proof.
  unfold handleJobFailure, mbind, M_bind. rewrite getJob_run.
  destruct (list_find _ _) as [[index job]|] eqn:Hfind; simpl; [|done].
  case_bool_decide; simpl.
  - rewrite updateJob_run, Hfind. reflexivity.
  - unfold retry_date, mbind, M_bind; simpl.
    destruct (new_Date_plus _ _) as [next_retry|]; simpl; [|done].
    rewrite updateJob_run; simpl. rewrite Hfind. reflexivity.
Qed.

Lemma getJob_Some jobId w job :
  fst (getJob jobId w) = Ok (Some job) ↔
  ∃ index, list_find (λ j, id j = jobId) (jobs_file w) = Some (index, job).
Proof.
  rewrite getJob_run; simpl. split.
  - intros [= Hfind]. destruct (list_find _ _) as [[index j]|]; [|done].
    simpl in Hfind. injection Hfind as ->. eauto.
  - intros [index ->]. done.
Qed.

(** The retry date for an exponent that is not negative. *)
Lemma retry_date_nonneg now job :
  0 ≤ attempts job + 1 →
  retry_date now job =
  let t := now + cfg_backoff_base config ^ (attempts job + 1) * 1000 in
  if bool_decide (- MAX_TIME_VALUE ≤ t ≤ MAX_TIME_VALUE) then Some t else None.
Proof.
  intros Hexp. unfold retry_date, Math_pow, new_Date_plus.
  rewrite bool_decide_true by done. rewrite bool_decide_false by done.
  rewrite Z.mul_1_r, Z.quot_1_r. simpl.
  repeat case_bool_decide; try done; unfold MAX_TIME_VALUE in *; lia.
Qed.

(** A retry date is a time value of a [Date]. *)
Lemma retry_date_range now job t :
  retry_date now job = Some t → - MAX_TIME_VALUE ≤ t ≤ MAX_TIME_VALUE.
Proof.
  unfold retry_date, new_Date_plus.
  destruct (Math_pow _ _) as [n d].
  repeat case_bool_decide; try done. intros [= <-].
  set (x := now * d + n * 1000) in *.
  assert (Z.abs (x ÷ d) ≤ MAX_TIME_VALUE) as Habs; [|lia].
  assert (0 < Z.abs d) by lia.
  assert (Z.abs (x ÷ d) * Z.abs d ≤ Z.abs x) as Hmul.
  { rewrite <- Z.quot_abs by lia. rewrite Z.mul_comm.
    apply Z.mul_quot_le; lia. }
  unfold MAX_TIME_VALUE in *. nia.
Qed.

(** One failure report on a stored job, when the handler returns, in terms
    of the record found. *)
Lemma handleJobFailure_step jobId errorMessage w index job w' :
  list_find (λ j, id j = jobId) (jobs_file w) = Some (index, job) →
  handleJobFailure jobId errorMessage w = (Ok (), w') →
  ∃ job',
    list_find (λ j, id j = jobId) (jobs_file w') = Some (index, job') ∧
    jobs_file w' = <[index := job']> (jobs_file w) ∧
    attempts job' = attempts job + 1 ∧
    max_retries job' = max_retries job ∧
    (state job' = DEAD ↔ attempts job' >= max_retries job') ∧
    (state job' = FAILED ↔ attempts job' < max_retries job') ∧
    worker_id job' = None ∧
    error_message job' = Some errorMessage ∧
    (state job' = FAILED →
       is_Some (next_retry_at job') ∧
       next_retry_at job' = retry_date (clock (ticks w)) job) ∧
    (state job' = DEAD → next_retry_at job' = next_retry_at job).
Proof.
  intros Hfind. pose proof (find_by_id_Some _ _ _ _ Hfind) as (_ & Hid & _).
  rewrite handleJobFailure_run, Hfind.
  case_bool_decide as Hdead.
  - intros [= <-]. eexists. simpl.
    split; [by eapply find_by_id_insert|].
    split_and!; try done; split; intros; simpl; (done || lia).
  - destruct (retry_date _ _) as [next_retry|] eqn:Hdate; [|done].
    intros [= <-]. eexists. simpl.
    split; [by eapply find_by_id_insert|].
    split_and!; try done; split; intros; simpl; (done || eauto || lia).
Qed.

(** When the handler returns, and what it leaves when it throws. *)
Lemma handleJobFailure_returns jobId errorMessage w index job :
  list_find (λ j, id j = jobId) (jobs_file w) = Some (index, job) →
  attempts job + 1 >= max_retries job ∨ is_Some (retry_date (clock (ticks w)) job) →
  ∃ w', handleJobFailure jobId errorMessage w = (Ok (), w').
Proof.
  intros Hfind Hcase. rewrite handleJobFailure_run, Hfind.
  case_bool_decide as Hdead; [eauto|].
  destruct Hcase as [?|[t Ht]]; [done|]. rewrite Ht. eauto.
Qed.

Lemma handleJobFailure_throws jobId errorMessage w index job :
  list_find (λ j, id j = jobId) (jobs_file w) = Some (index, job) →
  attempts job + 1 < max_retries job →
  retry_date (clock (ticks w)) job = None →
  handleJobFailure jobId errorMessage w =
  (Throw "Invalid time value",
   {| jobs_file := jobs_file w; ticks := S (ticks w); uuids := uuids w |}).
Proof.
  intros Hfind Hbelow Hdate. rewrite handleJobFailure_run, Hfind.
  rewrite bool_decide_false by lia. by rewrite Hdate.
Qed.

Lemma handleJobFailure_Throw jobId errorMessage w error w' :
  handleJobFailure jobId errorMessage w = (Throw error, w') →
  error = "Invalid time value" ∧
  w' = {| jobs_file := jobs_file w; ticks := S (ticks w); uuids := uuids w |} ∧
  ∃ index job,
    list_find (λ j, id j = jobId) (jobs_file w) = Some (index, job) ∧
    attempts job + 1 < max_retries job ∧
    retry_date (clock (ticks w)) job = None.
Proof.
  rewrite handleJobFailure_run.
  destruct (list_find _ _) as [[index job]|] eqn:Hfind; [|done].
  case_bool_decide as Hdead; [done|].
  destruct (retry_date _ _) eqn:Hdate; [done|].
  intros [= <- <-]. split_and!; try done. exists index, job. split_and!; try done. lia.
Qed.

(** X25. A failure reported on a stored job whose post-increment attempt
    count stays below [max_retries], when the retry date is a valid
    [Date], leaves the job Failed, without [worker_id], with the
    incremented count and the error recorded, and with [next_retry_at]
    equal to that date. For a post-increment count that is not negative
    the date is the time read by the handler plus
    [backoff_base ^ attempts] seconds, the exponent being the
    post-increment count: the first failure waits [backoff_base ^ 1]
    seconds. For a negative count the power is a fraction of a second, and
    the date is truncated to the millisecond. *)
Theorem handleJobFailure_schedules_retry jobId errorMessage w job next_retry :
  fst (getJob jobId w) = Ok (Some job) →
  attempts job + 1 < max_retries job →
  retry_date (clock (ticks w)) job = Some next_retry →
  ∃ w' job',
    handleJobFailure jobId errorMessage w = (Ok (), w') ∧
    fst (getJob jobId w') = Ok (Some job') ∧
    state job' = FAILED ∧
    worker_id job' = None ∧
    attempts job' = attempts job + 1 ∧
    error_message job' = Some errorMessage ∧
    next_retry_at job' = Some next_retry ∧
    - MAX_TIME_VALUE ≤ next_retry ≤ MAX_TIME_VALUE ∧
    (0 ≤ attempts job + 1 →
       next_retry =
         clock (ticks w) + cfg_backoff_base config ^ (attempts job + 1) * 1000) ∧
    (attempts job = 0 →
       next_retry = clock (ticks w) + cfg_backoff_base config * 1000) ∧
    (attempts job + 1 < 0 →
       next_retry =
         (clock (ticks w) * cfg_backoff_base config ^ (- (attempts job + 1)) + 1000)
         ÷ cfg_backoff_base config ^ (- (attempts job + 1))).
Proof.
  intros [index Hfind]%getJob_Some Hbelow Hdate.
  destruct (handleJobFailure_returns jobId errorMessage w index job Hfind)
    as [w' Hrun]; [right; by rewrite Hdate|].
  destruct (handleJobFailure_step jobId errorMessage w index job w' Hfind Hrun)
    as (job' & Hfind' & _ & Hatt & Hmax & _ & Hfailed & Hwid & Herr & Hnext & _).
  assert (state job' = FAILED) as Hstate by (apply Hfailed; lia).
  destruct (Hnext Hstate) as [_ Hnext'].
  assert (0 ≤ attempts job + 1 →
          next_retry =
            clock (ticks w) + cfg_backoff_base config ^ (attempts job + 1) * 1000)
    as Hformula.
  { intros Hexp. rewrite retry_date_nonneg in Hdate by done. simpl in Hdate.
    case_bool_decide; congruence. }
  exists w', job'. split_and!; try done.
  - apply getJob_Some; eauto.
  - congruence.
  - by eapply retry_date_range.
  - by eapply retry_date_range.
  - intros Hzero. rewrite Hformula by lia. by rewrite Hzero, Z.pow_1_r.
  - intros Hneg. unfold retry_date, Math_pow, new_Date_plus in Hdate.
    rewrite bool_decide_false in Hdate by lia.
    repeat case_bool_decide; try done. injection Hdate as <-. reflexivity.
Qed.

(** X26. [handleJobFailure] throws in one case only: the job is stored,
    it has attempts left after this failure, and the date of its next run
    is not a valid [Date]. It then throws the [RangeError] of
    [toISOString] after one reading of the clock and before any update, so
    that the store is as it was and the failure is not counted. For a
    post-increment count that is not negative the date is invalid exactly
    when the time read plus [backoff_base ^ attempts] seconds lies outside
    the range of time values. *)
Theorem handleJobFailure_throws_exactly jobId errorMessage w :
  ∃ outcome w',
    handleJobFailure jobId errorMessage w = (outcome, w') ∧
    (outcome = Ok () ∨
     outcome = Throw "Invalid time value" ∧
     jobs_file w' = jobs_file w ∧ ticks w' = S (ticks w)) ∧
    (outcome ≠ Ok () ↔
     ∃ job, fst (getJob jobId w) = Ok (Some job) ∧
            attempts job + 1 < max_retries job ∧
            retry_date (clock (ticks w)) job = None) ∧
    (∀ job, 0 ≤ attempts job + 1 →
       (retry_date (clock (ticks w)) job = None ↔
        ¬ (- MAX_TIME_VALUE
           ≤ clock (ticks w) + cfg_backoff_base config ^ (attempts job + 1) * 1000
           ≤ MAX_TIME_VALUE))).
Proof.
  destruct (handleJobFailure jobId errorMessage w) as [[[]|error] w'] eqn:Hrun;
    do 2 eexists; (split; [reflexivity|]); split_and!.
  - by left.
  - split; [done|]. intros (job & [index Hfind]%getJob_Some & Hbelow & Hdate).
    rewrite (handleJobFailure_throws _ _ _ _ _ Hfind Hbelow Hdate) in Hrun.
    discriminate.
  - intros job Hexp. rewrite retry_date_nonneg by done. simpl.
    case_bool_decide; split; (done || tauto).
  - apply handleJobFailure_Throw in Hrun as (-> & -> & _). right. done.
  - split; [|done]. intros _.
    apply handleJobFailure_Throw in Hrun as (_ & _ & index & job & Hfind & Hbelow & Hdate).
    exists job. split; [apply getJob_Some; eauto|done].
  - intros job Hexp. rewrite retry_date_nonneg by done. simpl.
    case_bool_decide; split; (done || tauto).
Qed.

Lemma reportFailures_run jobId errors w index job w' :
  list_find (λ j, id j = jobId) (jobs_file w) = Some (index, job) →
  reportFailures jobId errors w = (Ok (), w') →
  ∃ job',
    list_find (λ j, id j = jobId) (jobs_file w') = Some (index, job') ∧
    attempts job' = attempts job + Z.of_nat (length errors) ∧
    max_retries job' = max_retries job ∧
    id <$> jobs_file w' = id <$> jobs_file w ∧
    (errors = [] → job' = job) ∧
    (errors ≠ [] →
       (state job' = DEAD ↔ attempts job' >= max_retries job') ∧
       (state job' = FAILED ↔ attempts job' < max_retries job')).
Proof.
  revert w job. induction errors as [|e rest IH]; intros w job Hfind.
  - simpl. intros [= <-]. exists job. split_and!; try done. lia.
  - simpl. unfold mbind, M_bind.
    destruct (handleJobFailure jobId e w) as [[[]|error] w1] eqn:Hrun1; [|done].
    intros Hrun.
    destruct (handleJobFailure_step jobId e w index job w1 Hfind Hrun1)
      as (job1 & Hfind1 & Hfile1 & Hatt1 & Hmax1 & Hdead1 & Hfailed1 & _).
    destruct (IH w1 job1 Hfind1 Hrun)
      as (job' & Hfind' & Hatt & Hmax & Hids & Hnil & Hcons).
    exists job'. split_and!; try done.
    + rewrite Hatt, Hatt1. simpl length. lia.
    + congruence.
    + rewrite Hids, Hfile1, list_fmap_insert.
      apply list_insert_id. rewrite list_lookup_fmap.
      apply find_by_id_Some in Hfind as (-> & <- & _).
      apply find_by_id_Some in Hfind1 as (_ & Hid1 & _). simpl. by rewrite Hid1.
    + intros _. destruct rest as [|e' rest'].
      * rewrite (Hnil eq_refl). done.
      * by apply Hcons.
Qed.

Lemma getJobsByState_run s w :
  getJobsByState s w = (Ok (filter (λ j, state j = s) (jobs_file w)), w).
Proof. reflexivity. Qed.

(** In a collection whose ids are unique, the record found for an id is
    the only record with that id. *)
Lemma find_by_id_unique (jobs : list Job) jobId index job :
  NoDup (id <$> jobs) →
  list_find (λ j, id j = jobId) jobs = Some (index, job) →
  ∀ j, j ∈ jobs → id j = jobId → j = job.
Proof.
  intros Hnodup (Hlook & Hid & _)%list_find_Some j Hin Hj.
  apply list_elem_of_lookup in Hin as [k Hk].
  assert (k = index) as ->.
  { eapply NoDup_lookup; [exact Hnodup| |].
    - by rewrite list_lookup_fmap, Hk.
    - rewrite list_lookup_fmap, Hlook. simpl. by rewrite Hid, Hj. }
  congruence.
Qed.

(** C2 (as the code has it). On a stored job, every failure report that
    returns adds one to [attempts]; after such a report the job is Dead
    exactly when the incremented count has reached [max_retries] and Failed
    otherwise. A report that finds no attempt left always returns. The
    report that takes the job into Dead leaves [attempts] equal to the
    larger of [max_retries] and the count after the first report: equal to
    [max_retries] when the run started below it. A Dead job is in neither
    the Pending nor the Failed listing, and in a store whose ids are unique
    these listings hold no record with its id. *)
Theorem failure_reports_until_dead jobId earlier errorMessage w job w1 :
  fst (getJob jobId w) = Ok (Some job) →
  reportFailures jobId earlier w = (Ok (), w1) →
  ∃ job1,
    fst (getJob jobId w1) = Ok (Some job1) ∧
    attempts job1 = attempts job + Z.of_nat (length earlier) ∧
    max_retries job1 = max_retries job ∧
    (attempts job1 + 1 >= max_retries job1 →
       ∃ w2, handleJobFailure jobId errorMessage w1 = (Ok (), w2)) ∧
    ∀ w2,
      handleJobFailure jobId errorMessage w1 = (Ok (), w2) →
      ∃ job2,
        fst (getJob jobId w2) = Ok (Some job2) ∧
        attempts job2 = attempts job + Z.of_nat (length earlier) + 1 ∧
        max_retries job2 = max_retries job ∧
        (state job2 = DEAD ↔ attempts job2 >= max_retries job2) ∧
        (state job2 = FAILED ↔ attempts job2 < max_retries job2) ∧
        (state job1 ≠ DEAD → state job2 = DEAD →
           attempts job2 = Z.max (max_retries job) (attempts job + 1) ∧
           (attempts job < max_retries job → attempts job2 = max_retries job2)) ∧
        (state job2 = DEAD →
           ∀ listing,
             fst (getJobsByState PENDING w2) = Ok listing ∨
             fst (getJobsByState FAILED w2) = Ok listing →
             (job2 ∉ listing) ∧
             (NoDup (id <$> jobs_file w) → ∀ j, j ∈ listing → id j ≠ jobId)).
Proof.
  intros [index Hfind]%getJob_Some Hrun1.
  destruct (reportFailures_run jobId earlier w index job w1 Hfind Hrun1)
    as (job1 & Hfind1 & Hatt1 & Hmax1 & Hids1 & Hnil & Hcons).
  exists job1. split; [apply getJob_Some; eauto|].
  split; [done|]. split; [done|]. split.
  { intros Hlast. eapply handleJobFailure_returns; [exact Hfind1|by left]. }
  intros w2 Hrun2.
  destruct (handleJobFailure_step jobId errorMessage w1 index job1 w2 Hfind1 Hrun2)
    as (job2 & Hfind2 & Hfile2 & Hatt2 & Hmax2 & Hdead2 & Hfailed2 & _).
  exists job2. split_and!; try done.
  - apply getJob_Some; eauto.
  - lia.
  - congruence.
  - intros Halive Hdead. apply Hdead2 in Hdead.
    destruct earlier as [|e rest].
    + simpl in Hatt1. lia.
    + destruct (Hcons ltac:(done)) as [Hd Hf].
      assert (attempts job1 < max_retries job1) by
        (destruct (Z_lt_ge_dec (attempts job1) (max_retries job1)); [done|tauto]).
      simpl length in Hatt1. lia.
  - intros Hdead listing Hlisting.
    rewrite !getJobsByState_run in Hlisting. simpl in Hlisting.
    assert (∀ j, j ∈ listing → j ∈ jobs_file w2 ∧ state j ≠ DEAD) as Hlisted.
    { intros j Hin.
      destruct Hlisting as [[= <-]|[= <-]];
        apply list_elem_of_filter in Hin as [Hstate Hin]; split; congruence. }
    split.
    + intros Hin. by destruct (Hlisted _ Hin).
    + intros Hnodup j Hin Hid. destruct (Hlisted _ Hin) as [Hstored Halive].
      assert (id <$> jobs_file w2 = id <$> jobs_file w) as Hids2.
      { rewrite Hfile2, list_fmap_insert, <- Hids1.
        apply list_insert_id. rewrite list_lookup_fmap.
        pose proof (find_by_id_Some _ _ _ _ Hfind1) as (-> & <- & _).
        pose proof (find_by_id_Some _ _ _ _ Hfind2) as (_ & Hid2 & _).
        simpl. by rewrite Hid2. }
      rewrite <- Hids2 in Hnodup.
      rewrite (find_by_id_unique _ _ _ _ Hnodup Hfind2 j Hstored Hid) in Halive. done.
Qed.

(** *** Retry from the dead letter queue *)

Lemma retryDeadJob_run jobId w :
  retryDeadJob jobId w =
  match list_find (λ j, id j = jobId) (jobs_file w) with
  | None => (Ok false, w)
  | Some (index, job) =>
      if bool_decide (state job ≠ DEAD) then (Ok false, w)
      else
        (Ok true,
         {| jobs_file :=
              <[index := {| id := id job; command := command job;
                            state := PENDING;
                            attempts := 0;
                            max_retries := max_retries job;
                            created_at := created_at job;
                            updated_at := clock (ticks w);
                            next_retry_at := None;
                            error_message := None;
                            output := output job;
                            worker_id := worker_id job |}]> (jobs_file w);
            ticks := S (ticks w);
            uuids := uuids w |})
  end.
Proof.
  unfold retryDeadJob, mbind, M_bind. rewrite getJob_run.
  destruct (list_find _ _) as [[index job]|] eqn:Hfind; simpl; [|done].
  case_bool_decide; simpl; [done|].
  rewrite updateJob_run, Hfind. reflexivity.
Qed.

(** C6. [retryDeadJob] on the id of a stored Dead job returns [true] and
    leaves that job Pending with [attempts] 0 and without [error_message]
    and [next_retry_at], its other fields but [updated_at] and every other
    record as they were; on an id that is absent or whose job is not Dead
    it returns [false] and changes nothing. *)
Theorem retryDeadJob_resets jobId w :
  (∀ job, fst (getJob jobId w) = Ok (Some job) → state job = DEAD →
     ∃ w' job' index,
       retryDeadJob jobId w = (Ok true, w') ∧
       fst (getJob jobId w') = Ok (Some job') ∧
       state job' = PENDING ∧
       attempts job' = 0 ∧
       error_message job' = None ∧
       next_retry_at job' = None ∧
       id job' = id job ∧ command job' = command job ∧
       max_retries job' = max_retries job ∧ created_at job' = created_at job ∧
       output job' = output job ∧ worker_id job' = worker_id job ∧
       jobs_file w !! index = Some job ∧
       jobs_file w' = <[index := job']> (jobs_file w)) ∧
  (fst (getJob jobId w) = Ok None ∨
   (∃ job, fst (getJob jobId w) = Ok (Some job) ∧ state job ≠ DEAD) →
     retryDeadJob jobId w = (Ok false, w)).
Proof.
  split.
  - intros job [index Hfind]%getJob_Some Hdead.
    pose proof (find_by_id_Some _ _ _ _ Hfind) as (Hlook & Hid & _).
    rewrite retryDeadJob_run, Hfind.
    rewrite bool_decide_false by (intros Hne; by apply Hne).
    do 2 eexists. exists index. split; [reflexivity|].
    split.
    { apply getJob_Some. exists index. simpl. by eapply find_by_id_insert. }
    simpl. split_and!; done.
  - rewrite retryDeadJob_run, getJob_run. simpl.
    intros [[= Hnone]|(job & [= Hsome] & Halive)].
    + destruct (list_find _ _) as [[index job]|]; [done|done].
    + destruct (list_find _ _) as [[index found]|]; [|done].
      simpl in Hsome. injection Hsome as ->.
      by rewrite bool_decide_true.
Qed.

(** *** Enqueue and the first run of a job *)

Lemma enqueue_run command maxRetries w :
  enqueue command maxRetries w =
  match validateCommand command with
  | Some error => (Throw error, w)
  | None =>
      let job :=
        {| id := uuid_gen (uuids w);
           command := command;
           state := PENDING;
           attempts := 0;
           max_retries := default (cfg_max_retries config) maxRetries;
           created_at := clock (ticks w);
           updated_at := clock (S (ticks w));
           next_retry_at := None;
           error_message := None;
           output := None;
           worker_id := None |} in
      (Ok job,
       {| jobs_file := jobs_file w ++ [job];
          ticks := S (S (ticks w));
          uuids := S (uuids w) |})
  end.
Proof.
  unfold enqueue. destruct (validateCommand command); [done|].
  destruct maxRetries; reflexivity.
Qed.

Lemma processJob_begin_run jobId workerId w :
  processJob_begin jobId workerId w =
  match list_find (λ j, id j = jobId) (jobs_file w) with
  | None => (Ok None, w)
  | Some (index, job) =>
      (Ok (Some job),
       {| jobs_file :=
            <[index := {| id := id job; command := command job;
                          state := PROCESSING;
                          attempts := attempts job;
                          max_retries := max_retries job;
                          created_at := created_at job;
                          updated_at := clock (ticks w);
                          next_retry_at := next_retry_at job;
                          error_message := error_message job;
                          output := output job;
                          worker_id := Some workerId |}]> (jobs_file w);
          ticks := S (ticks w);
          uuids := uuids w |})
  end.
Proof.
  unfold processJob_begin, mbind, M_bind. rewrite getJob_run.
  destruct (list_find _ _) as [[index job]|] eqn:Hfind; simpl; [|done].
  rewrite updateJob_run, Hfind. reflexivity.
Qed.

Lemma updateJob_ok jobId updates w : ∃ b w', updateJob jobId updates w = (Ok b, w').
Proof.
  rewrite updateJob_run. destruct (list_find _ _) as [[index old]|]; eauto.
Qed.

Lemma processJob_end_run jobId result w :
  processJob_end jobId result w =
  if success result then
    (Ok true,
     snd (updateJob jobId
            {| p_id := None; p_command := None;
               p_state := Some COMPLETED;
               p_attempts := None; p_max_retries := None;
               p_created_at := None; p_updated_at := None;
               p_next_retry_at := None; p_error_message := None;
               p_output := Some (res_output result);
               p_worker_id := Some None |} w))
  else
    match handleJobFailure jobId (error_or_unknown result) w with
    | (Ok _, w1) => (Ok false, w1)
    | (Throw error, w1) =>
        match handleJobFailure jobId
                ("Unexpected error: " +:+ RangeError_toString error) w1 with
        | (Ok _, w2) => (Ok false, w2)
        | (Throw error', w2) => (Throw error', w2)
        end
    end.
Proof.
  unfold processJob_end, try_catch, mbind, M_bind.
  destruct (success result).
  - destruct (updateJob_ok jobId
      {| p_id := None; p_command := None;
         p_state := Some COMPLETED;
         p_attempts := None; p_max_retries := None;
         p_created_at := None; p_updated_at := None;
         p_next_retry_at := None; p_error_message := None;
         p_output := Some (res_output result);
         p_worker_id := Some None |} w) as (b & w' & ->).
    reflexivity.
  - destruct (handleJobFailure jobId (error_or_unknown result) w) as [[[]|error] w1];
      [reflexivity|].
    by destruct (handleJobFailure _ _ w1) as [[[]|error'] w2].
Qed.


Lemma find_by_id_last jobId (jobs : list Job) job :
  (∀ j, j ∈ jobs → id j ≠ jobId) →
  id job = jobId →
  list_find (λ j, id j = jobId) (jobs ++ [job]) = Some (length jobs, job).
Proof.
  intros Hfresh Hid.
  rewrite list_find_app_r by by apply find_by_id_absent.
  simpl. by rewrite decide_True.
Qed.



(** *** The job-record invariant *)

Lemma updateJob_preserves (Q : Job → Prop) jobId updates w :
  Forall Q (jobs_file w) →
  (∀ index old,
     list_find (λ j, id j = jobId) (jobs_file w) = Some (index, old) →
     Q (spread old updates (clock (ticks w)))) →
  Forall Q (jobs_file (snd (updateJob jobId updates w))).
Proof.
  intros Hall Hnew. rewrite updateJob_run.
  destruct (list_find _ _) as [[index old]|] eqn:Hfind; simpl; [|done].
  apply Forall_insert; eauto.
Qed.

Lemma handleJobFailure_keeps jobId errorMessage w :
  Forall job_invariant_kept (jobs_file w) →
  Forall job_invariant_kept (jobs_file (snd (handleJobFailure jobId errorMessage w))).
Proof.
  intros Hall. rewrite handleJobFailure_run.
  destruct (list_find _ _) as [[index old]|]; [|done].
  case_bool_decide; [|destruct (retry_date _ _); [|done]];
    simpl; (apply Forall_insert; [done|]);
    (split; simpl; [split; [by intros [? ?]|done]|by eauto]).
Qed.

(** [processJob_end] keeps what both failure reports keep. *)
Lemma processJob_end_keeps (Q : Job → Prop) jobId result w :
  (∀ updates w',
     p_state updates = Some COMPLETED → p_worker_id updates = Some None →
     p_attempts updates = None → p_next_retry_at updates = None →
     Forall Q (jobs_file w') →
     Forall Q (jobs_file (snd (updateJob jobId updates w')))) →
  (∀ errorMessage w',
     Forall Q (jobs_file w') →
     Forall Q (jobs_file (snd (handleJobFailure jobId errorMessage w')))) →
  Forall Q (jobs_file w) →
  Forall Q (jobs_file (snd (processJob_end jobId result w))).
Proof.
  intros Hcomplete Hfail Hall. rewrite processJob_end_run.
  destruct (success result); simpl; [by apply Hcomplete|].
  pose proof (Hfail (error_or_unknown result) w Hall) as Hfirst.
  destruct (handleJobFailure jobId (error_or_unknown result) w) as [[[]|error] w1];
    [done|].
  simpl in Hfirst.
  pose proof (Hfail ("Unexpected error: " +:+ RangeError_toString error) w1 Hfirst)
    as Hsecond.
  by destruct (handleJobFailure _ _ w1) as [[[]|error'] w2].
Qed.

Lemma resetStuckJobs_loop_keeps jobs resetCount w :
  Forall job_invariant_kept (jobs_file w) →
  Forall job_invariant_kept (jobs_file (snd (resetStuckJobs_loop jobs resetCount w))).
Proof.
  revert resetCount w. induction jobs as [|job rest IH]; intros resetCount w Hall;
    simpl; [done|].
  case_bool_decide; [|by apply IH].
  unfold mbind, M_bind.
  match goal with |- context [updateJob ?i ?u w] =>
    pose proof (updateJob_preserves job_invariant_kept i u w Hall) as Hkeep;
    destruct (updateJob_ok i u w) as (b & w' & Hrun)
  end.
  rewrite Hrun in Hkeep |- *. apply IH, Hkeep.
  intros index old _. split; simpl; [split; [by intros [? ?]|done]|done].
Qed.

(** C4 (as the code has it). Every transition of the queue manager
    (marking a claimed job as processing, completing, failing, retrying
    from the dead letter queue, orphan recovery) keeps, for every stored
    job: [worker_id] is set if and only if the state is Processing, and a
    Failed job has its [next_retry_at]. Marking a job as processing and
    moving it to Dead leave [next_retry_at] as it was. *)
Theorem transitions_keep_invariant w :
  Forall job_invariant_kept (jobs_file w) →
  (∀ jobId workerId,
     Forall job_invariant_kept (jobs_file (snd (processJob_begin jobId workerId w)))) ∧
  (∀ jobId result,
     Forall job_invariant_kept (jobs_file (snd (processJob_end jobId result w)))) ∧
  (∀ jobId errorMessage,
     Forall job_invariant_kept (jobs_file (snd (handleJobFailure jobId errorMessage w)))) ∧
  (∀ jobId,
     Forall job_invariant_kept (jobs_file (snd (retryDeadJob jobId w)))) ∧
  Forall job_invariant_kept (jobs_file (snd (resetStuckJobs w))) ∧
  (∀ jobId workerId job,
     fst (getJob jobId w) = Ok (Some job) →
     ∃ job', fst (getJob jobId (snd (processJob_begin jobId workerId w))) = Ok (Some job') ∧
             state job' = PROCESSING ∧ worker_id job' = Some workerId ∧
             next_retry_at job' = next_retry_at job) ∧
  (∀ jobId errorMessage job,
     fst (getJob jobId w) = Ok (Some job) →
     attempts job + 1 >= max_retries job →
     ∃ job', fst (getJob jobId (snd (handleJobFailure jobId errorMessage w))) = Ok (Some job') ∧
             state job' = DEAD ∧ worker_id job' = None ∧
             next_retry_at job' = next_retry_at job).
Proof.
  intros Hall. split_and!.
  - intros jobId workerId. rewrite processJob_begin_run.
    destruct (list_find _ _) as [[index old]|]; simpl; [|done].
    apply Forall_insert; [done|].
    split; simpl; [split; [done|by eauto]|done].
  - intros jobId result. apply processJob_end_keeps; [| |done].
    + intros updates w' Hstate Hwid _ _ Hall'.
      apply updateJob_preserves; [done|].
      intros index old _. unfold job_invariant_kept, spread. simpl.
      rewrite Hstate, Hwid. simpl.
      split; [split; [by intros [? ?]|done]|done].
    + intros errorMessage w'. apply handleJobFailure_keeps.
  - intros jobId errorMessage. by apply handleJobFailure_keeps.
  - intros jobId. rewrite retryDeadJob_run.
    destruct (list_find _ _) as [[index old]|] eqn:Hfind; [|done].
    case_bool_decide as Hstate; simpl; [done|].
    apply Forall_insert; [done|].
    pose proof (find_by_id_Some _ _ _ _ Hfind) as (Hlook & _).
    apply list_elem_of_lookup_2 in Hlook.
    rewrite Forall_forall in Hall. destruct (Hall old Hlook) as [Hwid _].
    split; simpl; [split; [|done]|done].
    intros Hsome. apply Hwid in Hsome. congruence.
  - by apply resetStuckJobs_loop_keeps.
  - intros jobId workerId job [index Hfind]%getJob_Some.
    pose proof (find_by_id_Some _ _ _ _ Hfind) as (_ & Hid & _).
    rewrite processJob_begin_run, Hfind. eexists. split.
    + apply getJob_Some. exists index. simpl. by eapply find_by_id_insert.
    + done.
  - intros jobId errorMessage job [index Hfind]%getJob_Some Hlast.
    pose proof (find_by_id_Some _ _ _ _ Hfind) as (_ & Hid & _).
    rewrite handleJobFailure_run, Hfind, bool_decide_true by done.
    eexists. split.
    + apply getJob_Some. exists index. simpl. by eapply find_by_id_insert.
    + done.
Qed.

(** *** Orphan recovery at pool start *)

Lemma orphan_reset_id old new : orphan_reset old new → id new = id old.
Proof.
  unfold orphan_reset. case_bool_decide; [|by intros ->].
  intros (_ & _ & Hid & _). done.
Qed.

Lemma orphan_reset_ids (olds news : list Job) :
  Forall2 orphan_reset olds news → id <$> news = id <$> olds.
Proof.
  induction 1 as [|old new olds news Hreset _ IH]; [done|].
  rewrite !fmap_cons. f_equal; [by apply orphan_reset_id|done].
Qed.

Lemma orphan_reset_not_processing old new :
  orphan_reset old new → state new ≠ PROCESSING.
Proof.
  unfold orphan_reset. case_bool_decide as Hstate.
  - intros (-> & _). done.
  - by intros ->.
Qed.

(** The loop, started on the records [rest] still to visit while the file
    holds the records already visited followed by [rest]. *)
Lemma resetStuckJobs_loop_spec (rest visited_old visited_new : list Job) resetCount w :
  jobs_file w = visited_new ++ rest →
  Forall2 orphan_reset visited_old visited_new →
  NoDup (id <$> visited_old ++ rest) →
  ∃ w' rest',
    resetStuckJobs_loop rest resetCount w =
      (Ok (resetCount + length (filter (λ j, state j = PROCESSING) rest))%nat, w') ∧
    jobs_file w' = visited_new ++ rest' ∧
    Forall2 orphan_reset rest rest' ∧
    uuids w' = uuids w.
Proof.
  revert visited_old visited_new resetCount w.
  induction rest as [|job rest IH];
    intros visited_old visited_new resetCount w Hfile Hvisited Hnodup.
  - exists w, []. simpl. rewrite Nat.add_0_r. done.
  - simpl. case_bool_decide as Hstate.
    + assert (list_find (λ j, id j = id job) (jobs_file w)
              = Some (length visited_new, job)) as Hfind.
      { rewrite Hfile, list_find_app_r.
        - simpl. by rewrite decide_True.
        - apply find_by_id_absent. intros j Hj Hid.
          rewrite fmap_app in Hnodup.
          apply NoDup_app in Hnodup as (_ & Hdisjoint & _).
          apply (Hdisjoint (id job)).
          + rewrite <- (orphan_reset_ids _ _ Hvisited), <- Hid.
            by apply list_elem_of_fmap_2.
          + simpl. left. }
      unfold mbind, M_bind. rewrite updateJob_run, Hfind.
      set (job' := spread job _ _).
      set (w1 := {| jobs_file := _ |}).
      destruct (IH (visited_old ++ [job]) (visited_new ++ [job']) (S resetCount) w1)
        as (w' & rest' & Hrun & Hfile' & Hrest & Huuids).
      * unfold w1; simpl. rewrite Hfile, <- (assoc_L (++)). simpl.
        rewrite <- (Nat.add_0_r (length visited_new)). by rewrite insert_app_r.
      * apply Forall2_app; [done|]. constructor; [|done].
        unfold orphan_reset. rewrite bool_decide_true by done. done.
      * by rewrite <- (assoc_L (++)).
      * exists w', (job' :: rest'). rewrite Hrun, Hfile'.
        rewrite filter_cons_True by done. simpl.
        split_and!; [f_equal; f_equal; lia|by rewrite <- (assoc_L (++))| |done].
        constructor; [|done].
        unfold orphan_reset. rewrite bool_decide_true by done. done.
    + destruct (IH (visited_old ++ [job]) (visited_new ++ [job]) resetCount w)
        as (w' & rest' & Hrun & Hfile' & Hrest & Huuids).
      * by rewrite Hfile, <- (assoc_L (++)).
      * apply Forall2_app; [done|]. constructor; [|done].
        unfold orphan_reset. by rewrite bool_decide_false.
      * by rewrite <- (assoc_L (++)).
      * exists w', (job :: rest'). rewrite Hrun, Hfile'.
        rewrite filter_cons_False by done.
        split_and!; [done|by rewrite <- (assoc_L (++))| |done].
        constructor; [|done].
        unfold orphan_reset. by rewrite bool_decide_false.
Qed.

Lemma workers_set_just_started wk (ws : list Worker) :
  just_started wk → Forall just_started ws → Forall just_started (workers_set wk ws).
Proof.
  intros Hwk Hws. unfold workers_set.
  destruct (list_find _ _) as [[i ?]|].
  - by apply Forall_insert.
  - apply Forall_app. split; [done|]. by constructor.
Qed.

Lemma spawn_run count (ws : list Worker) w :
  Forall just_started ws →
  ∃ ws' w',
    spawn count ws w = (Ok ws', w') ∧
    jobs_file w' = jobs_file w ∧
    Forall just_started ws'.
Proof.
  revert ws w. induction count as [|n IH]; intros ws w Hws.
  - exists ws, w. done.
  - simpl. unfold mbind, M_bind. simpl.
    match goal with |- context [spawn n ?ws1 ?w1] =>
      destruct (IH ws1 w1) as (ws' & w' & Hrun & Hfile & Hall)
    end.
    + apply workers_set_just_started; [|done]. by repeat split.
    + exists ws', w'. by rewrite Hrun.
Qed.

(** C7 (as the code has it). Starting a stopped pool with at least one
    worker, over a store whose ids are unique: [resetStuckJobs] runs first
    and returns the number of Processing jobs; it turns every Processing
    job into a Pending job without [worker_id] and leaves every other job
    as it was; the workers are created after that, over the store so
    recovered, and each of them is idle with no job and has not polled
    yet. This is the pool that [start] leaves, whether it then returns
    (the runtime defines [Deno]) or throws from [setupShutdownHandlers]. *)
Theorem start_recovers_orphans count p :
  1 ≤ count →
  pool_isRunning p = false →
  NoDup (id <$> jobs_file (world p)) →
  ∃ resetCount recovered p',
    resetStuckJobs (world p) = (Ok resetCount, recovered) ∧
    resetCount = length (filter (λ j, state j = PROCESSING) (jobs_file (world p))) ∧
    Forall2 orphan_reset (jobs_file (world p)) (jobs_file recovered) ∧
    start count p =
      (if deno then Ok () else Throw "Deno is not defined", p') ∧
    jobs_file (world p') = jobs_file recovered ∧
    (∀ j, j ∈ jobs_file (world p') → state j ≠ PROCESSING) ∧
    Forall just_started (workers p').
Proof.
  intros Hcount Hstopped Hnodup.
  destruct (resetStuckJobs_loop_spec (jobs_file (world p)) [] [] 0 (world p))
    as (recovered & jobs' & Hreset & Hfile & Hjobs & _); [done|constructor|done|].
  simpl in Hreset, Hfile. rewrite <- Hfile in Hjobs.
  assert (workers p = []) as Hnone.
  { unfold pool_isRunning in Hstopped.
    apply orb_false_iff in Hstopped as [Hlen _].
    apply bool_decide_eq_false in Hlen.
    destruct (workers p); [done|]. simpl in Hlen. lia. }
  destruct (spawn_run (Z.to_nat count) (workers p) recovered)
    as (ws' & w' & Hspawn & Hsame & Hws); [by rewrite Hnone|].
  do 3 eexists. split; [exact Hreset|]. split; [done|]. split; [done|].
  unfold start. rewrite bool_decide_false by lia. rewrite Hstopped.
  unfold mbind, M_bind. unfold resetStuckJobs, mbind, M_bind, readJobs in Hreset.
  unfold resetStuckJobs, mbind, M_bind, readJobs.
  rewrite Hreset, Hspawn. split; [reflexivity|]. simpl.
  split_and!; [done| |done].
  intros j Hj. rewrite Hsame in Hj.
  apply list_elem_of_lookup_1 in Hj as [i Hi].
  destruct (Forall2_lookup_r _ _ _ _ _ Hjobs Hi) as (old & _ & Hold).
  by eapply orphan_reset_not_processing.
Qed.

(** *** Interleavings of the workers *)

Lemma resume_at_step i p : resume_at i p = p ∨ pool_step p (resume_at i p).
Proof.
  unfold resume_at. destruct (workers p !! i) as [wk|] eqn:Hwk; [|by left].
  destruct (worker_resume wk (world p)) as [[wk'|e] world'] eqn:Hrun; [|by left].
  right. by eapply step_resume.
Qed.

Lemma run_schedule_reachable schedule p : rtc pool_step p (run_schedule schedule p).
Proof.
  revert p. induction schedule as [|i rest IH]; intros p; [constructor|].
  unfold run_schedule. simpl. fold (run_schedule rest (resume_at i p)).
  destruct (resume_at_step i p) as [->|Hstep]; [apply IH|].
  eapply rtc_l; [exact Hstep|apply IH].
Qed.

End Properties.

(** ** Concrete runs *)

(** C1 (the code does not have the property). Two workers B and C started
    over a store with the single Pending job A: when both run
    [getNextJob] before either runs [processJob], both get job A and both
    mark it as processing and execute it. The pool reaches a state in which
    the two workers hold job A at the same time. *)
Theorem two_workers_hold_one_job :
  jobs_file (world two_workers) = [enqueued_job 3] ∧
  Forall just_started (workers two_workers) ∧
  ∃ p wk1 wk2,
    rtc (pool_step (env := sample_env)) two_workers p ∧
    workers p = [wk1; wk2] ∧
    w_id wk1 ≠ w_id wk2 ∧
    holds p wk1 "A" ∧ holds p wk2 "A".
Proof.
  split; [reflexivity|].
  split; [vm_compute; by repeat constructor|].
  exists (run_schedule (env := sample_env) [0; 1; 0; 1]%nat two_workers).
  do 2 eexists. split; [apply run_schedule_reachable|].
  split; [vm_compute; reflexivity|].
  split; [done|].
  split.
  - unfold holds. split_and!; [vm_compute; left|done|done|by eexists|].
    eexists. split_and!; [vm_compute; left|done|done].
  - unfold holds. split_and!; [vm_compute; right; left|done|done|by eexists|].
    eexists. split_and!; [vm_compute; left|done|done].
Qed.

(** C2, refuted as stated. The job enqueued with [max_retries] 0 is Dead
    after its first failed run, with [attempts] 1: the count at the moment of
    entering Dead is not [max_retries]. *)
Lemma dead_with_attempts_above_max_retries :
  ∃ dead,
    fst (getJob "A" one_job_without_retries) = Ok (Some (enqueued_job 0)) ∧
    fst (getJob "A" (snd (processJob (env := sample_env) "A" "B"
                            one_job_without_retries))) = Ok (Some dead) ∧
    state dead = DEAD ∧
    0 ≤ max_retries dead ∧
    attempts dead = 1 ∧
    attempts dead ≠ max_retries dead.
Proof. eexists. split_and!; [reflexivity|vm_compute; reflexivity|done..]. Qed.

(** C4, refuted as stated. After one failed run the job A is Failed with
    its [next_retry_at], and the store satisfies the invariant; once the
    retry time has come the worker B claims the job again, and marking it as
    processing leaves a Processing job that still has the [next_retry_at]. *)
Lemma claim_keeps_stale_retry_time :
  Forall job_invariant (jobs_file (world failed_once_reclaimed)) ∧
  ¬ Forall job_invariant
      (jobs_file (snd (processJob_begin (env := sample_env) "A" "B"
                         (world failed_once_reclaimed)))).
Proof.
  split.
  - apply (bool_decide_unpack _). vm_compute. exact I.
  - apply (bool_decide_unpack _). vm_compute. exact I.
Qed.

(** C8, refuted as stated. Appending a record whose id is already in the
    collection succeeds and changes the collection, which then holds the
    record twice. *)
Lemma addJob_accepts_duplicate_id :
  enqueued_job 3 ∈ jobs_file one_failing_job ∧
  ∃ w', addJob (enqueued_job 3) one_failing_job = (Ok (), w') ∧
        jobs_file w' = [enqueued_job 3; enqueued_job 3] ∧
        jobs_file w' ≠ jobs_file one_failing_job.
Proof.
  split; [vm_compute; left|].
  eexists. split_and!; [reflexivity|reflexivity|discriminate].
Qed.

(** C3 (the code does not have the property). With [backoff_base] set
    to 10^13, the first failure of job A, whose post-increment count 1 is
    below its [max_retries] 3, is not recorded: the retry date lies beyond
    the last valid [Date], [toISOString] throws, and the handler throws
    before it updates the job. [processJob] reports the failure once more
    from its [catch] block, which throws again, so that the job stays
    Processing under worker B with [attempts] 0 and no [next_retry_at];
    the worker counts a failed job and goes idle, and no later poll finds
    the job. *)
Theorem retry_date_overflow_strands_job :
  fst (getJob "A" crashed_store) = Ok (Some claimed_job) ∧
  attempts claimed_job + 1 < max_retries claimed_job ∧
  handleJobFailure (env := huge_backoff_env) "A" "boom" crashed_store =
    (Throw "Invalid time value",
     {| jobs_file := jobs_file crashed_store; ticks := 4; uuids := 1 |}) ∧
  (∃ w' stuck,
     processJob (env := huge_backoff_env) "A" "B" one_failing_job =
       (Throw "Invalid time value", w') ∧
     jobs_file w' = [stuck] ∧
     state stuck = PROCESSING ∧ worker_id stuck = Some "B" ∧
     attempts stuck = 0 ∧ next_retry_at stuck = None ∧
     error_message stuck = None) ∧
  ∃ p wk stuck,
    rtc (pool_step (env := huge_backoff_env)) one_worker_huge_backoff p ∧
    workers p = [wk] ∧
    w_state wk = idle ∧ currentJobId wk = None ∧ jobsFailed wk = 1%nat ∧
    jobs_file (world p) = [stuck] ∧
    state stuck = PROCESSING ∧ worker_id stuck = Some "B" ∧
    ∀ w, jobs_file w = jobs_file (world p) →
         fst (getNextPendingJob (env := huge_backoff_env) w) = Ok None.
Proof.
  split_and!; [reflexivity|done|vm_compute; reflexivity| |].
  - do 2 eexists. split; [vm_compute; reflexivity|]. done.
  - exists (run_schedule (env := huge_backoff_env) [0; 0; 0]%nat one_worker_huge_backoff).
    do 2 eexists. split; [apply run_schedule_reachable|].
    split; [vm_compute; reflexivity|].
    split_and!; try done.
    intros w Hfile. rewrite getNextPendingJob_run. simpl. by rewrite Hfile.
Qed.


(** C7, refuted as stated. In a jobs file that holds the record of a
    Processing job twice, [resetStuckJobs] counts two jobs, updates the
    first record twice, and leaves the second record Processing with its
    [worker_id]; so does [start], which runs it. *)
Lemma resetStuckJobs_misses_duplicate_id :
  Forall (λ j, state j = PROCESSING) (jobs_file duplicate_store) ∧
  ∃ w' reset stuck,
    resetStuckJobs (env := sample_env) duplicate_store = (Ok 2%nat, w') ∧
    jobs_file w' = [reset; stuck] ∧
    state reset = PENDING ∧
    state stuck = PROCESSING ∧ worker_id stuck = Some "W" ∧
    jobs_file (world (snd (start (env := sample_env) 1 (stopped_pool duplicate_store))))
      = [reset; stuck].
Proof.
  split; [by repeat constructor|].
  do 3 eexists. split; [vm_compute; reflexivity|].
  split_and!; try done.
Qed.

(** ** The theorems at concrete inputs *)

(** Scenario A of the specification: ["exit 1"] with [max_retries] 2 is
    Failed after the first failure and Dead, with [attempts] 2, after the
    second. *)
Lemma failure_reports_until_dead_witness :
  fst (getJob "A" one_job_with_two_retries) = Ok (Some (enqueued_job 2)) ∧
  reportFailures (env := sample_env) "A" ["first"] one_job_with_two_retries
    = (Ok (), failed_once) ∧
  ∃ job1,
    fst (getJob "A" failed_once) = Ok (Some job1) ∧
    attempts job1 = 1 ∧
    max_retries job1 = 2 ∧
    (attempts job1 + 1 >= max_retries job1 →
       ∃ w2, handleJobFailure (env := sample_env) "A" "second" failed_once
             = (Ok (), w2)) ∧
    ∀ w2,
      handleJobFailure (env := sample_env) "A" "second" failed_once = (Ok (), w2) →
      ∃ job2,
        fst (getJob "A" w2) = Ok (Some job2) ∧
        attempts job2 = 2 ∧
        max_retries job2 = 2 ∧
        (state job2 = DEAD ↔ attempts job2 >= max_retries job2) ∧
        (state job2 = FAILED ↔ attempts job2 < max_retries job2) ∧
        (state job1 ≠ DEAD → state job2 = DEAD →
           attempts job2 = 2 ∧ (0 < 2 → attempts job2 = max_retries job2)) ∧
        (state job2 = DEAD →
           ∀ listing,
             fst (getJobsByState PENDING w2) = Ok listing ∨
             fst (getJobsByState FAILED w2) = Ok listing →
             (job2 ∉ listing) ∧
             (NoDup (id <$> jobs_file one_job_with_two_retries) →
              ∀ j, j ∈ listing → id j ≠ "A")).
Proof.
  assert (reportFailures (env := sample_env) "A" ["first"] one_job_with_two_retries
          = (Ok (), failed_once)) as Hfirst by (vm_compute; reflexivity).
  split_and!; [reflexivity|exact Hfirst|].
  exact (failure_reports_until_dead (env := sample_env) "A" ["first"] "second"
           one_job_with_two_retries (enqueued_job 2) failed_once
           eq_refl Hfirst).
Defined.

(** The first failure of job A, reported at time 3000 with the default
    [backoff_base] 2: the retry is due at 3000 + 2^1 * 1000. *)
Lemma handleJobFailure_schedules_retry_witness :
  fst (getJob "A" crashed_store) = Ok (Some claimed_job) ∧
  attempts claimed_job + 1 < max_retries claimed_job ∧
  retry_date (env := sample_env) 3000 claimed_job = Some 5000 ∧
  ∃ w' job',
    handleJobFailure (env := sample_env) "A" "boom" crashed_store = (Ok (), w') ∧
    fst (getJob "A" w') = Ok (Some job') ∧
    state job' = FAILED ∧
    worker_id job' = None ∧
    attempts job' = 1 ∧
    error_message job' = Some "boom" ∧
    next_retry_at job' = Some 5000 ∧
    - MAX_TIME_VALUE ≤ 5000 ≤ MAX_TIME_VALUE ∧
    (0 ≤ 0 + 1 → 5000 = 3000 + 2 ^ 1 * 1000) ∧
    (attempts claimed_job = 0 → 5000 = 3000 + 2 * 1000) ∧
    (0 + 1 < 0 → 5000 = (3000 * 2 ^ (- (0 + 1)) + 1000) ÷ 2 ^ (- (0 + 1))).
Proof.
  assert (attempts claimed_job + 1 < max_retries claimed_job) as Hbelow by done.
  split_and!; [reflexivity|done|reflexivity|].
  exact (handleJobFailure_schedules_retry (env := sample_env) "A" "boom"
           crashed_store claimed_job 5000 eq_refl Hbelow eq_refl).
Defined.

(** The store in which job A has failed once: every transition keeps what
    [job_invariant_kept] says. *)
Lemma transitions_keep_invariant_witness :
  Forall job_invariant_kept (jobs_file (world failed_once_reclaimed)) ∧
  (∀ jobId workerId,
     Forall job_invariant_kept
       (jobs_file (snd (processJob_begin (env := sample_env) jobId workerId
                          (world failed_once_reclaimed))))) ∧
  (∀ jobId result,
     Forall job_invariant_kept
       (jobs_file (snd (processJob_end (env := sample_env) jobId result
                          (world failed_once_reclaimed))))) ∧
  (∀ jobId errorMessage,
     Forall job_invariant_kept
       (jobs_file (snd (handleJobFailure (env := sample_env) jobId errorMessage
                          (world failed_once_reclaimed))))) ∧
  (∀ jobId,
     Forall job_invariant_kept
       (jobs_file (snd (retryDeadJob (env := sample_env) jobId
                          (world failed_once_reclaimed))))) ∧
  Forall job_invariant_kept
    (jobs_file (snd (resetStuckJobs (env := sample_env) (world failed_once_reclaimed)))) ∧
  (∀ jobId workerId job,
     fst (getJob jobId (world failed_once_reclaimed)) = Ok (Some job) →
     ∃ job',
       fst (getJob jobId (snd (processJob_begin (env := sample_env) jobId workerId
                                 (world failed_once_reclaimed)))) = Ok (Some job') ∧
       state job' = PROCESSING ∧ worker_id job' = Some workerId ∧
       next_retry_at job' = next_retry_at job) ∧
  (∀ jobId errorMessage job,
     fst (getJob jobId (world failed_once_reclaimed)) = Ok (Some job) →
     attempts job + 1 >= max_retries job →
     ∃ job',
       fst (getJob jobId (snd (handleJobFailure (env := sample_env) jobId errorMessage
                                 (world failed_once_reclaimed)))) = Ok (Some job') ∧
       state job' = DEAD ∧ worker_id job' = None ∧
       next_retry_at job' = next_retry_at job).
Proof.
  assert (Forall job_invariant_kept (jobs_file (world failed_once_reclaimed))) as Hkept.
  { apply (bool_decide_unpack _). vm_compute. exact I. }
  split; [exact Hkept|].
  exact (transitions_keep_invariant (env := sample_env)
           (world failed_once_reclaimed) Hkept).
Defined.

(** Starting one worker over the store left by the crash: job A is back
    in Pending before worker B exists. *)
Lemma start_recovers_orphans_witness :
  1 ≤ 1 ∧
  pool_isRunning (stopped_pool crashed_store) = false ∧
  NoDup (id <$> jobs_file (world (stopped_pool crashed_store))) ∧
  ∃ resetCount recovered p',
    resetStuckJobs (env := sample_env) (world (stopped_pool crashed_store))
      = (Ok resetCount, recovered) ∧
    resetCount = 1%nat ∧
    Forall2 orphan_reset (jobs_file (world (stopped_pool crashed_store)))
      (jobs_file recovered) ∧
    start (env := sample_env) 1 (stopped_pool crashed_store) = (Ok (), p') ∧
    jobs_file (world p') = jobs_file recovered ∧
    (∀ j, j ∈ jobs_file (world p') → state j ≠ PROCESSING) ∧
    Forall just_started (workers p').
Proof.
  assert (1 ≤ 1) as Hcount by done.
  assert (NoDup (id <$> jobs_file (world (stopped_pool crashed_store)))) as Hnodup.
  { apply (bool_decide_unpack _). vm_compute. exact I. }
  split_and!; [done|reflexivity|exact Hnodup|].
  exact (start_recovers_orphans (env := sample_env) 1 (stopped_pool crashed_store)
           Hcount eq_refl Hnodup).
Defined.


(** Retrying the Dead job A, and retrying an id that is not in the store. *)
Lemma retryDeadJob_resets_witness :
  (∃ job, fst (getJob "A" dead_store) = Ok (Some job) ∧ state job = DEAD ∧
     ∃ w' job' index,
       retryDeadJob (env := sample_env) "A" dead_store = (Ok true, w') ∧
       fst (getJob "A" w') = Ok (Some job') ∧
       state job' = PENDING ∧ attempts job' = 0 ∧
       error_message job' = None ∧ next_retry_at job' = None ∧
       id job' = id job ∧ command job' = command job ∧
       max_retries job' = max_retries job ∧ created_at job' = created_at job ∧
       output job' = output job ∧ worker_id job' = worker_id job ∧
       jobs_file dead_store !! index = Some job ∧
       jobs_file w' = <[index := job']> (jobs_file dead_store)) ∧
  fst (getJob "Z" dead_store) = Ok None ∧
  retryDeadJob (env := sample_env) "Z" dead_store = (Ok false, dead_store).
Proof.
  split.
  - eexists. split; [vm_compute; reflexivity|]. split; [reflexivity|].
    exact (proj1 (retryDeadJob_resets (env := sample_env) "A" dead_store)
             _ eq_refl eq_refl).
  - split; [reflexivity|].
    exact (proj2 (retryDeadJob_resets (env := sample_env) "Z" dead_store)
             (or_introl eq_refl)).
Defined.

(** Updating job A of the crashed store, and updating an absent id. *)
Lemma updateJob_frame_witness :
  (∃ j, j ∈ jobs_file crashed_store ∧ id j = "A") ∧
  (∀ j, j ∈ jobs_file crashed_store → id j ≠ "Z") ∧
  (∃ new w',
     updateJob (env := sample_env) "A"
       (mkPartial None None (Some PENDING) None None None None None None None (Some None))
       crashed_store = (Ok true, w') ∧
     jobs_file w' = [new] ∧
     state new = PENDING ∧ worker_id new = None ∧ updated_at new = 3000 ∧
     id new = "A" ∧ command new = "exit 1" ∧ attempts new = 0 ∧ max_retries new = 3) ∧
  updateJob (env := sample_env) "Z"
    (mkPartial None None (Some PENDING) None None None None None None None (Some None))
    crashed_store = (Ok false, crashed_store).
Proof.
  assert (∃ j, j ∈ jobs_file crashed_store ∧ id j = "A") as Hpresent.
  { exists claimed_job. split; [vm_compute; left|done]. }
  assert (∀ j, j ∈ jobs_file crashed_store → id j ≠ "Z") as Habsent.
  { intros j Hj. vm_compute in Hj. apply list_elem_of_singleton in Hj. by subst. }
  split_and!; [exact Hpresent|exact Habsent| |].
  - destruct (proj1 (updateJob_frame (env := sample_env) "A"
                       (mkPartial None None (Some PENDING) None None None None None None
                          None (Some None))
                       crashed_store) Hpresent)
      as (index & old & new & w' & Hrun & Hold & _ & _ & Hnew & _ & Hlen
          & Hid & Hcmd & Hstate & Hatt & Hmax & _ & _ & _ & _ & Hwid & Hstamp).
    exists new, w'. split; [exact Hrun|].
    destruct index as [|index]; [|done].
    injection Hold as <-.
    destruct (jobs_file w') as [|first [|second rest]]; [done| |done].
    injection Hnew as ->. done.
  - exact (proj2 (updateJob_frame (env := sample_env) "Z"
                    (mkPartial None None (Some PENDING) None None None None None None None
                       (Some None))
                    crashed_store) Habsent).
Defined.

(** ** Further properties of the store *)

Section StoreProperties.

Context {env : Env}.

Implicit Types (w : World) (job : Job) (jobId : string).

Lemma filter_length_eq {A} (P : A → Prop) `{∀ x, Decision (P x)} (l : list A) :
  length (filter P l) = length l → filter P l = l.
Proof.
  induction l as [|x l IH]; [done|].
  destruct (decide (P x)) as [HP|HP].
  - rewrite filter_cons_True by done. simpl. intros [= Hlen]. by rewrite IH.
  - rewrite filter_cons_False by done. simpl. intros Hlen.
    pose proof (length_filter P l). lia.
Qed.

Lemma deleteJob_run jobId w :
  deleteJob jobId w =
  let filtered := filter (λ j, id j ≠ jobId) (jobs_file w) in
  if bool_decide (length filtered = length (jobs_file w)) then (Ok false, w)
  else (Ok true, {| jobs_file := filtered; ticks := ticks w; uuids := uuids w |}).
Proof.
  unfold deleteJob, mbind, M_bind, readJobs. simpl. by case_bool_decide.
Qed.

(** X1. [deleteJob] returns [true] exactly when some record has the id. It
    removes every record with that id, not only the first, and keeps all
    other records in their order, so that a lookup of the id then finds
    nothing; when it returns [false] the store is untouched. *)
Theorem deleteJob_removes_every_record jobId w :
  ∃ deleted w',
    deleteJob jobId w = (Ok deleted, w') ∧
    (deleted = true ↔ ∃ j, j ∈ jobs_file w ∧ id j = jobId) ∧
    (∀ j, j ∈ jobs_file w' ↔ j ∈ jobs_file w ∧ id j ≠ jobId) ∧
    jobs_file w' `sublist_of` jobs_file w ∧
    fst (getJob jobId w') = Ok None ∧
    (deleted = false → w' = w).
Proof.
  rewrite deleteJob_run. simpl.
  assert (∀ j, j ∈ filter (λ j, id j ≠ jobId) (jobs_file w)
               ↔ j ∈ jobs_file w ∧ id j ≠ jobId) as Hmem.
  { intros j. rewrite list_elem_of_filter. tauto. }
  assert (list_find (λ j, id j = jobId) (filter (λ j, id j ≠ jobId) (jobs_file w)) = None)
    as Hgone.
  { apply find_by_id_absent. intros j Hj. by apply Hmem in Hj as [_ ?]. }
  case_bool_decide as Hlen.
  - apply filter_length_eq in Hlen. rewrite Hlen in Hmem, Hgone.
    exists false, w. split_and!; try done.
    + split; [done|]. intros (j & Hj & Hid). apply Hmem in Hj as [_ Hne]. done.
    + rewrite ?getJob_run. simpl. by rewrite Hgone.
  - eexists true, _. split; [reflexivity|]. simpl. split_and!; try done.
    + split; [|done]. intros _.
      destruct (decide (Forall (λ j, id j ≠ jobId) (jobs_file w))) as [Hall|Hsome].
      * destruct Hlen. f_equal. clear Hmem Hgone.
        induction Hall as [|x l Hx _ IH]; [done|].
        by rewrite filter_cons_True, IH.
      * apply not_Forall_Exists in Hsome; [|apply _].
        apply Exists_exists in Hsome as (j & Hj & Hid).
        exists j. split; [done|]. by apply dec_stable.
    + apply sublist_filter.
    + rewrite ?getJob_run. simpl. by rewrite Hgone.
Qed.

Lemma stats_fold (jobs : list Job) (init : JobState → nat) s :
  foldl (λ stats job, stats_incr stats (state job)) init jobs s =
  (init s + length (filter (λ j, state j = s) jobs))%nat.
Proof.
  revert init. induction jobs as [|job jobs IH]; intros init; simpl; [lia|].
  rewrite IH. unfold stats_incr at 1.
  destruct (decide (state job = s)) as [<-|Hne].
  - rewrite filter_cons_True by done. rewrite decide_True by done. simpl. lia.
  - rewrite filter_cons_False by done. rewrite decide_False by done. lia.
Qed.

Lemma states_partition (jobs : list Job) :
  (length (filter (λ j, state j = PENDING) jobs) +
   length (filter (λ j, state j = PROCESSING) jobs) +
   length (filter (λ j, state j = COMPLETED) jobs) +
   length (filter (λ j, state j = FAILED) jobs) +
   length (filter (λ j, state j = DEAD) jobs))%nat = length jobs.
Proof.
  induction jobs as [|job jobs IH]; [done|].
  destruct (state job) eqn:Hstate;
    repeat (first [rewrite filter_cons_True by congruence
                  |rewrite filter_cons_False by congruence]);
    simpl; lia.
Qed.

(** X2. [getStats] counts the records of each state, and the five counts
    add up to the number of records. In the statistics of the queue manager
    [processing], [completed], [failed] and [dead] are the numbers of
    records in these states, [active_workers] is 0, and [pending] counts
    the Failed jobs together with the Pending ones; so the total that
    [status] prints, which adds [failed] once more, is the number of
    records plus the number of Failed records. Neither method changes the
    store. *)
Theorem getStats_counts w :
  ∃ stats summary,
    getStats w = (Ok stats, w) ∧
    (∀ s, stats s = count_state s (jobs_file w)) ∧
    (stats PENDING + stats PROCESSING + stats COMPLETED + stats FAILED + stats DEAD)%nat
      = length (jobs_file w) ∧
    QueueManager_getStats w = (Ok summary, w) ∧
    pending summary =
      (count_state PENDING (jobs_file w) + count_state FAILED (jobs_file w))%nat ∧
    processing summary = count_state PROCESSING (jobs_file w) ∧
    completed summary = count_state COMPLETED (jobs_file w) ∧
    failed summary = count_state FAILED (jobs_file w) ∧
    dead summary = count_state DEAD (jobs_file w) ∧
    active_workers summary = 0%nat ∧
    (pending summary + processing summary + completed summary + dead summary)%nat
      = length (jobs_file w) ∧
    status_total summary =
      (length (jobs_file w) + count_state FAILED (jobs_file w))%nat.
Proof.
  unfold count_state.
  assert (∀ s, foldl (λ stats job, stats_incr stats (state job)) (λ _, 0%nat)
                 (jobs_file w) s
               = length (filter (λ j, state j = s) (jobs_file w))) as Hcount.
  { intros s. by rewrite stats_fold. }
  pose proof (states_partition (jobs_file w)) as Hsum.
  do 2 eexists. split; [reflexivity|]. split; [exact Hcount|].
  split; [rewrite !Hcount; lia|].
  split; [reflexivity|].
  unfold status_total. simpl. rewrite !Hcount. split_and!; try done; lia.
Qed.

Lemma cleanupOldJobs_run setDate daysOld w :
  cleanupOldJobs setDate daysOld w =
  let filtered :=
    filter (λ j, recent_or_unfinished (setDate (clock (ticks w)) daysOld) j)
      (jobs_file w) in
  let removed := (length (jobs_file w) - length filtered)%nat in
  (Ok removed,
   {| jobs_file := if bool_decide (0 < removed)%nat then filtered else jobs_file w;
      ticks := S (ticks w);
      uuids := uuids w |}).
Proof.
  unfold cleanupOldJobs, mbind, M_bind, readJobs, date_now. simpl.
  by case_bool_decide.
Qed.

(** X24. [cleanupOldJobs] keeps every record that is not Completed and
    every Completed record updated after the cut-off, in their order; it
    removes the Completed records updated at or before the cut-off and
    returns how many it removed. *)
Theorem cleanupOldJobs_removes_only_old_completed setDate daysOld w :
  ∃ removed w',
    cleanupOldJobs setDate daysOld w = (Ok removed, w') ∧
    (∀ j, j ∈ jobs_file w' ↔
          j ∈ jobs_file w ∧
          (state j ≠ COMPLETED ∨ setDate (clock (ticks w)) daysOld < updated_at j)) ∧
    jobs_file w' `sublist_of` jobs_file w ∧
    (length (jobs_file w') + removed)%nat = length (jobs_file w) ∧
    (removed = 0%nat → jobs_file w' = jobs_file w).
Proof.
  rewrite cleanupOldJobs_run. simpl.
  set (cutoff := setDate (clock (ticks w)) daysOld).
  set (filtered := filter (λ j, recent_or_unfinished cutoff j) (jobs_file w)).
  assert (length filtered ≤ length (jobs_file w))%nat as Hle by apply length_filter.
  assert ((if bool_decide (0 < length (jobs_file w) - length filtered)%nat
           then filtered else jobs_file w) = filtered) as ->.
  { case_bool_decide; [done|]. symmetry. apply filter_length_eq.
    fold filtered. lia. }
  do 2 eexists. split; [reflexivity|]. simpl. split_and!.
  - intros j. unfold filtered. rewrite list_elem_of_filter.
    unfold recent_or_unfinished.
    case_bool_decide as Hstate; [|case_bool_decide as Hnew]; simpl; split;
      tauto.
  - apply sublist_filter.
  - lia.
  - intros Hnone. apply filter_length_eq. fold filtered. lia.
Qed.

End StoreProperties.

(** ** Further properties of the queue manager *)

Section ManagerProperties.

Context {env : Env}.

Implicit Types (w : World) (job : Job) (jobId : string).

Lemma trimStart_empty s : trimStart s = EmptyString ↔ blank s = true.
Proof.
  induction s as [|c s IH]; simpl; [done|].
  destruct (isWhiteSpace c); simpl; [done|]. split; discriminate.
Qed.

Lemma blank_trimStart s : blank (trimStart s) = blank s.
Proof.
  induction s as [|c s IH]; simpl; [done|].
  destruct (isWhiteSpace c) eqn:Hc; simpl; [done|]. by rewrite Hc.
Qed.

Lemma blank_rev_app s acc : blank (String.rev_app s acc) = blank s && blank acc.
Proof.
  revert acc. induction s as [|c s IH]; intros acc; simpl; [done|].
  rewrite IH. simpl. destruct (isWhiteSpace c), (blank s); done.
Qed.

Lemma length_rev_app s acc :
  String.length (String.rev_app s acc) = (String.length s + String.length acc)%nat.
Proof.
  revert acc. induction s as [|c s IH]; intros acc; simpl; [done|].
  rewrite IH. simpl. lia.
Qed.

Lemma trim_empty s : String.length (trim s) = 0%nat ↔ blank s = true.
Proof.
  unfold trim, String.rev. rewrite length_rev_app. simpl. rewrite Nat.add_0_r.
  rewrite <- (blank_trimStart s).
  rewrite <- (andb_true_r (blank (trimStart s))).
  change true with (blank EmptyString) at 1.
  rewrite <- blank_rev_app, <- trimStart_empty.
  destruct (trimStart (String.rev_app (trimStart s) EmptyString)); simpl; [done|].
  split; discriminate.
Qed.

(** X3. [validateCommand] rejects a command that is empty or consists of
    white space only, as empty; it rejects a command of more than 10000
    code units, as too long; it accepts every other command. *)
Theorem validateCommand_accepts cmd :
  (blank cmd = true → validateCommand cmd = Some "Command cannot be empty") ∧
  (blank cmd = false → 10000 < Z.of_nat (String.length cmd) →
     validateCommand cmd = Some "Command is too long") ∧
  (blank cmd = false → Z.of_nat (String.length cmd) ≤ 10000 →
     validateCommand cmd = None).
Proof.
  unfold validateCommand. split_and!.
  - intros Hblank. apply trim_empty in Hblank.
    rewrite (bool_decide_true (String.length (trim cmd) = 0%nat)) by done.
    by rewrite orb_true_r.
  - intros Hink Hlong.
    rewrite bool_decide_false by (intros ->; done).
    rewrite bool_decide_false
      by (intros Hempty%trim_empty; by rewrite Hempty in Hink).
    simpl. by rewrite bool_decide_true.
  - intros Hink Hshort.
    rewrite bool_decide_false by (intros ->; done).
    rewrite bool_decide_false
      by (intros Hempty%trim_empty; by rewrite Hempty in Hink).
    simpl. by rewrite bool_decide_false by lia.
Qed.

Lemma getNextPendingJob_None w :
  fst (getNextPendingJob w) = Ok None →
  ∀ j, j ∈ jobs_file w → ¬ eligible (clock (ticks w)) j.
Proof.
  rewrite getNextPendingJob_run. simpl. intros [= Hhead%head_sort_nil] j Hj Hel.
  assert (j ∈ filter (λ j, available (clock (ticks w)) j) (jobs_file w)) as Hin.
  { apply list_elem_of_filter. split; [|done].
    by apply Is_true_true, available_eligible. }
  rewrite Hhead in Hin. by apply not_elem_of_nil in Hin.
Qed.

(** X4. [enqueue] with a rejected command throws the validation error and
    leaves the store, the clock and the identifier generator untouched.
    With an accepted command it appends one record: Pending, with no
    attempts, no retry time and no worker, [max_retries] the override when
    one is given and the configured value otherwise. The new job is in the
    Pending listing, a claim issued right after finds an eligible job, and
    the job is read back by its id when the id is new. *)
Theorem enqueue_read_back cmd maxRetries w :
  (∀ error, validateCommand cmd = Some error →
     enqueue cmd maxRetries w = (Throw error, w)) ∧
  (validateCommand cmd = None →
     ∃ job w',
       enqueue cmd maxRetries w = (Ok job, w') ∧
       jobs_file w' = jobs_file w ++ [job] ∧
       id job = uuid_gen (uuids w) ∧ command job = cmd ∧
       state job = PENDING ∧ attempts job = 0 ∧
       max_retries job = default (cfg_max_retries config) maxRetries ∧
       created_at job = clock (ticks w) ∧
       next_retry_at job = None ∧ worker_id job = None ∧
       (∃ listing, fst (getJobsByState PENDING w') = Ok listing ∧ job ∈ listing) ∧
       fst (getNextPendingJob w') ≠ Ok None ∧
       ((∀ j, j ∈ jobs_file w → id j ≠ id job) →
          fst (getJob (id job) w') = Ok (Some job))).
Proof.
  rewrite enqueue_run. split.
  - intros error ->. done.
  - intros ->. do 2 eexists. split; [reflexivity|]. cbn [jobs_file].
    split_and!; try done.
    + eexists. rewrite getJobsByState_run. split; [reflexivity|].
      apply list_elem_of_filter. split; [done|].
      apply elem_of_app. right. left.
    + intros Hnone. eapply (getNextPendingJob_None _ Hnone).
      * apply elem_of_app. right. left.
      * split; [by left|by left].
    + intros Hfresh. apply getJob_Some. eexists. by apply find_by_id_last.
Qed.

(** X5. On an id that no stored record has, [processJob] returns [false]
    and [handleJobFailure] returns, and neither changes anything: nothing
    is executed, no record is written and the clock is not read. *)
Theorem unknown_id_changes_nothing jobId workerId errorMessage w :
  (∀ j, j ∈ jobs_file w → id j ≠ jobId) →
  processJob jobId workerId w = (Ok false, w) ∧
  handleJobFailure jobId errorMessage w = (Ok (), w).
Proof.
  intros Habsent%find_by_id_absent. split.
  - unfold processJob, mbind, M_bind.
    by rewrite processJob_begin_run, Habsent.
  - by rewrite handleJobFailure_run, Habsent.
Qed.

(** X6. [processJob] on a stored job runs its command once, and changes
    no record but that of the job, whose [id], [command], [max_retries]
    and [created_at] it keeps. On success it returns [true] and the job is
    Completed with the output of the command, without worker, its attempts
    unchanged. On failure with no attempt left it returns [false] and the
    job is Dead, with one attempt more and the error recorded. On failure
    with attempts left it returns [false] and the job is Failed for the
    retry date, provided that date is a valid [Date]; when it is not, the
    failure is reported again from the [catch] block, at the next reading
    of the clock and under the message of the [RangeError]; and when that
    date is invalid too, [processJob] throws and the job stays Processing
    under the worker, with its attempts unchanged. *)
Theorem processJob_outcome jobId workerId w job :
  fst (getJob jobId w) = Ok (Some job) →
  ∃ index job' outcome w',
    processJob jobId workerId w = (outcome, w') ∧
    jobs_file w !! index = Some job ∧
    jobs_file w' = <[index := job']> (jobs_file w) ∧
    fst (getJob jobId w') = Ok (Some job') ∧
    identity job' = identity job ∧
    output job' =
      (if success (execute (command job))
       then res_output (execute (command job)) else output job) ∧
    (success (execute (command job)) = true →
       outcome = Ok true ∧ state job' = COMPLETED ∧ worker_id job' = None ∧
       attempts job' = attempts job ∧
       error_message job' = error_message job) ∧
    (success (execute (command job)) = false →
     attempts job + 1 >= max_retries job →
       outcome = Ok false ∧ state job' = DEAD ∧ worker_id job' = None ∧
       attempts job' = attempts job + 1 ∧
       error_message job' = Some (error_or_unknown (execute (command job))) ∧
       next_retry_at job' = next_retry_at job) ∧
    (success (execute (command job)) = false →
     attempts job + 1 < max_retries job →
       match retry_date (clock (S (ticks w))) job,
             retry_date (clock (S (S (ticks w)))) job with
       | Some due, _ =>
           outcome = Ok false ∧ state job' = FAILED ∧ worker_id job' = None ∧
           attempts job' = attempts job + 1 ∧
           error_message job' = Some (error_or_unknown (execute (command job))) ∧
           next_retry_at job' = Some due
       | None, Some due =>
           outcome = Ok false ∧ state job' = FAILED ∧ worker_id job' = None ∧
           attempts job' = attempts job + 1 ∧
           error_message job' =
             Some "Unexpected error: RangeError: Invalid time value" ∧
           next_retry_at job' = Some due
       | None, None =>
           outcome = Throw "Invalid time value" ∧
           state job' = PROCESSING ∧ worker_id job' = Some workerId ∧
           attempts job' = attempts job ∧
           error_message job' = error_message job ∧
           next_retry_at job' = next_retry_at job
       end).
Proof.
  intros [index Hfind]%getJob_Some.
  set (result := execute (command job)).
  set (first_date := retry_date (clock (S (ticks w))) job).
  set (second_date := retry_date (clock (S (S (ticks w)))) job).
  pose proof (find_by_id_Some _ _ _ _ Hfind) as (Hlook & Hid & _).
  exists index.
  unfold processJob, mbind, M_bind. rewrite processJob_begin_run, Hfind.
  set (running := {| id := id job; state := PROCESSING |}).
  set (w2 := {| jobs_file := <[index := running]> (jobs_file w) |}).
  assert (list_find (λ j, id j = jobId) (jobs_file w2) = Some (index, running))
    as Hfind2 by by eapply find_by_id_insert.
  assert (∀ job0, id job0 = jobId →
            fst (getJob jobId
                   {| jobs_file := <[index := job0]> (jobs_file w);
                      ticks := S (S (ticks w)); uuids := uuids w |})
            = Ok (Some job0)) as Hget2.
  { intros job0 Hid0. apply getJob_Some. exists index. by eapply find_by_id_insert. }
  assert (∀ job0, id job0 = jobId →
            fst (getJob jobId
                   {| jobs_file := <[index := job0]> (jobs_file w);
                      ticks := S (S (S (ticks w))); uuids := uuids w |})
            = Ok (Some job0)) as Hget3.
  { intros job0 Hid0. apply getJob_Some. exists index. by eapply find_by_id_insert. }
  rewrite processJob_end_run. fold result.
  destruct (success result) eqn:Hok.
  - rewrite updateJob_run, Hfind2. cbn [snd jobs_file w2].
    unfold w2 at 1. cbn [jobs_file].
    eexists _, _, _. rewrite list_insert_insert_eq.
    split; [reflexivity|]. cbn [jobs_file].
    split; [done|]. split; [reflexivity|].
    split; [by apply Hget2|].
    split_and!; done.
  - rewrite handleJobFailure_run, Hfind2.
    change (attempts running) with (attempts job).
    change (max_retries running) with (max_retries job).
    change (retry_date (clock (ticks w2)) running) with first_date.
    case_bool_decide as Hlast.
    + subst w2. cbn [jobs_file ticks uuids].
      eexists _, _, _. rewrite list_insert_insert_eq.
      split; [reflexivity|]. cbn [jobs_file].
      split; [done|]. split; [reflexivity|].
      split; [by apply Hget2|].
      split_and!; try done.
    + destruct first_date as [due|] eqn:Hfirst.
      * subst w2. cbn [jobs_file ticks uuids].
        eexists _, _, _. rewrite list_insert_insert_eq.
        split; [reflexivity|]. cbn [jobs_file].
        split; [done|]. split; [reflexivity|].
        split; [by apply Hget3|].
        split_and!; try done.
      * subst w2. cbn [jobs_file ticks uuids] in Hfind2 |- *.
        rewrite handleJobFailure_run. cbn [jobs_file ticks uuids].
        rewrite Hfind2.
        change (attempts running) with (attempts job).
        change (max_retries running) with (max_retries job).
        rewrite bool_decide_false by done.
        change (retry_date (clock (S (S (ticks w)))) running) with second_date.
        destruct second_date as [due|] eqn:Hsecond.
        -- eexists _, _, _. rewrite list_insert_insert_eq.
           split; [reflexivity|]. cbn [jobs_file].
           split; [done|]. split; [reflexivity|].
           split; [apply getJob_Some; exists index; by eapply find_by_id_insert|].
           split_and!; try done.
        -- eexists _, _, _. split; [reflexivity|]. cbn [jobs_file].
           split; [done|]. split; [reflexivity|].
           split; [apply getJob_Some; exists index; by eapply find_by_id_insert|].
           split_and!; try done.
Qed.

(** *** What the transitions never change *)

Lemma keeps_identity_ret {A} (a : A) : keeps_identity (mret a).
Proof. by intros w. Qed.

Lemma keeps_identity_throw {A} msg : keeps_identity (throw (A := A) msg).
Proof. by intros w. Qed.

Lemma keeps_identity_bind {A B} (m : M A) (k : A → M B) :
  keeps_identity m → (∀ a, keeps_identity (k a)) → keeps_identity (m ≫= k).
Proof.
  intros Hm Hk w. unfold mbind, M_bind. specialize (Hm w).
  destruct (m w) as [[a|e] w1]; [|done].
  rewrite <- Hm. apply Hk.
Qed.

Lemma keeps_identity_try_catch {A} (body : M A) (handler : string → M A) :
  keeps_identity body → (∀ error, keeps_identity (handler error)) →
  keeps_identity (try_catch body handler).
Proof.
  intros Hbody Hhandler w. unfold try_catch. specialize (Hbody w).
  destruct (body w) as [[a|e] w1]; [done|].
  rewrite <- Hbody. apply Hhandler.
Qed.

Lemma keeps_identity_getJob jobId : keeps_identity (getJob jobId).
Proof. by intros w. Qed.

Lemma keeps_identity_date_now : keeps_identity date_now.
Proof. by intros w. Qed.

Lemma keeps_identity_updateJob jobId updates :
  p_id updates = None → p_command updates = None →
  p_max_retries updates = None → p_created_at updates = None →
  keeps_identity (updateJob jobId updates).
Proof.
  intros Hid Hcmd Hmax Hcreated w. rewrite updateJob_run.
  destruct (list_find _ _) as [[index old]|] eqn:Hfind; [|done].
  pose proof (find_by_id_Some _ _ _ _ Hfind) as (Hlook & _).
  simpl. rewrite list_fmap_insert. apply list_insert_id.
  rewrite list_lookup_fmap, Hlook. simpl. f_equal.
  unfold identity, spread. simpl. by rewrite Hid, Hcmd, Hmax, Hcreated.
Qed.

Lemma keeps_identity_handleJobFailure jobId errorMessage :
  keeps_identity (handleJobFailure jobId errorMessage).
Proof.
  unfold handleJobFailure.
  apply keeps_identity_bind; [apply keeps_identity_getJob|].
  intros [job|]; [|apply keeps_identity_ret].
  case_bool_decide.
  - apply keeps_identity_bind; [by apply keeps_identity_updateJob|].
    intros _. apply keeps_identity_ret.
  - apply keeps_identity_bind; [apply keeps_identity_date_now|]. intros now.
    apply keeps_identity_bind.
    { unfold toISOString. destruct (new_Date_plus _ _);
        [apply keeps_identity_ret|apply keeps_identity_throw]. }
    intros next_retry.
    apply keeps_identity_bind; [by apply keeps_identity_updateJob|].
    intros _. apply keeps_identity_ret.
Qed.

Lemma keeps_identity_resetStuckJobs_loop jobs resetCount :
  keeps_identity (resetStuckJobs_loop jobs resetCount).
Proof.
  revert resetCount. induction jobs as [|job rest IH]; intros resetCount; simpl.
  - apply keeps_identity_ret.
  - case_bool_decide; [|apply IH].
    apply keeps_identity_bind; [by apply keeps_identity_updateJob|].
    intros _. apply IH.
Qed.

(** X7. Every method that moves jobs through their states ([processJob],
    [handleJobFailure], [retryDeadJob], [resetStuckJobs]) keeps, position
    by position, the [id], [command], [max_retries] and [created_at] of
    every stored record, whether it returns or throws: no job is added,
    lost, reordered or given another command or retry budget. *)
Theorem transitions_keep_identity :
  (∀ jobId workerId, keeps_identity (processJob jobId workerId)) ∧
  (∀ jobId errorMessage, keeps_identity (handleJobFailure jobId errorMessage)) ∧
  (∀ jobId, keeps_identity (retryDeadJob jobId)) ∧
  keeps_identity resetStuckJobs.
Proof.
  split_and!.
  - intros jobId workerId. unfold processJob, processJob_begin, processJob_end.
    apply keeps_identity_bind.
    { apply keeps_identity_bind; [apply keeps_identity_getJob|].
      intros [job|]; [|apply keeps_identity_ret].
      apply keeps_identity_bind; [by apply keeps_identity_updateJob|].
      intros _. apply keeps_identity_ret. }
    intros [job|]; [|apply keeps_identity_ret].
    apply keeps_identity_try_catch.
    + destruct (success (execute (command job))).
      * apply keeps_identity_bind; [by apply keeps_identity_updateJob|].
        intros _. apply keeps_identity_ret.
      * apply keeps_identity_bind; [apply keeps_identity_handleJobFailure|].
        intros _. apply keeps_identity_ret.
    + intros error.
      apply keeps_identity_bind; [apply keeps_identity_handleJobFailure|].
      intros _. apply keeps_identity_ret.
  - apply keeps_identity_handleJobFailure.
  - intros jobId. unfold retryDeadJob.
    apply keeps_identity_bind; [apply keeps_identity_getJob|].
    intros [job|]; [|apply keeps_identity_ret].
    case_bool_decide; [apply keeps_identity_ret|].
    apply keeps_identity_bind; [by apply keeps_identity_updateJob|].
    intros _. apply keeps_identity_ret.
  - unfold resetStuckJobs.
    apply keeps_identity_bind; [by intros w|].
    intros jobs. apply keeps_identity_resetStuckJobs_loop.
Qed.

(** *** Order of service *)

Lemma head_sort_first {A} (cmp : A → A → Z) (key : A → Z) (l : list A) x :
  (∀ a b, cmp a b = key a - key b) →
  head (sort cmp l) = Some x →
  ∃ l1 l2, l = l1 ++ x :: l2 ∧ ∀ y, y ∈ l1 → key x < key y.
Proof.
  intros Hcmp. revert x. induction l as [|a l IH]; intros x; simpl; [done|].
  rewrite head_sort_insert.
  destruct (head (sort cmp l)) as [y|] eqn:Hhead.
  - case_bool_decide as Hle; rewrite Hcmp in Hle; intros [= <-].
    + exists [], l. split; [done|]. by intros z Hz%elem_of_nil.
    + destruct (IH y eq_refl) as (l1 & l2 & -> & Hbefore).
      exists (a :: l1), l2. split; [done|].
      intros z [->|Hz]%elem_of_cons; [lia|by apply Hbefore].
  - intros [= <-]. exists [], l. split; [done|]. by intros z Hz%elem_of_nil.
Qed.

Lemma filter_split {A} (P : A → Prop) `{∀ x, Decision (P x)} (l l1 l2 : list A) x :
  filter P l = l1 ++ x :: l2 →
  ∃ k1 k2, l = k1 ++ x :: k2 ∧ filter P k1 = l1.
Proof.
  revert l1. induction l as [|a l IH]; intros l1 Hfilter.
  - by destruct l1.
  - destruct (decide (P a)) as [Ha|Ha].
    + rewrite filter_cons_True in Hfilter by done.
      destruct l1 as [|b l1]; simpl in Hfilter; injection Hfilter as Heq Hrest.
      * exists [], l. by rewrite Heq.
      * destruct (IH l1 Hrest) as (k1 & k2 & -> & Hk1).
        exists (a :: k1), k2. split; [done|].
        by rewrite filter_cons_True, Hk1, Heq.
    + rewrite filter_cons_False in Hfilter by done.
      destruct (IH l1 Hfilter) as (k1 & k2 & -> & Hk1).
      exists (a :: k1), k2. split; [done|].
      by rewrite filter_cons_False.
Qed.

(** X8. Ties between eligible jobs go to the record that comes first in the
    file: every eligible record stored before the job that
    [getNextPendingJob] returns has a strictly later [created_at]. *)
Theorem getNextPendingJob_first_among_equals w job :
  fst (getNextPendingJob w) = Ok (Some job) →
  ∃ index,
    jobs_file w !! index = Some job ∧
    ∀ k j, (k < index)%nat → jobs_file w !! k = Some j →
           eligible (clock (ticks w)) j → created_at job < created_at j.
Proof.
  rewrite getNextPendingJob_run. simpl. intros [= Hhead].
  apply (head_sort_first _ created_at) in Hhead as (l1 & l2 & Hfilter & Hbefore);
    [|done].
  apply filter_split in Hfilter as (k1 & k2 & Hjobs & Hk1).
  exists (length k1). rewrite Hjobs. split; [by rewrite list_lookup_middle|].
  intros k j Hk Hlook Hel. rewrite lookup_app_l in Hlook by done.
  apply Hbefore. rewrite <- Hk1. apply list_elem_of_filter.
  split; [by apply Is_true_true, available_eligible|].
  by eapply list_elem_of_lookup_2.
Qed.

Lemma unique_by_id (jobs : list Job) x y :
  NoDup (id <$> jobs) → x ∈ jobs → y ∈ jobs → id x = id y → x = y.
Proof.
  intros Hnodup [i Hi]%list_elem_of_lookup_1 [j Hj]%list_elem_of_lookup_1 Hid.
  assert (i = j) as ->.
  { eapply NoDup_lookup; [exact Hnodup| |].
    - by rewrite list_lookup_fmap, Hi.
    - by rewrite list_lookup_fmap, Hj, Hid. }
  congruence.
Qed.

(** X9. A job that a failure report has left Failed waits for its backoff:
    in a store with unique ids, when the report returns (the retry date is
    a valid [Date]), whatever time has passed, [getNextPendingJob] hands
    the job out only when the clock has reached the retry date, and from
    that time on a claim never comes back empty. For a job whose attempts
    are not negative the retry date is the time of the report plus
    [backoff_base ^ attempts] seconds, the exponent being the count after
    the report. *)
Theorem failed_job_waits_for_backoff jobId errorMessage w job due :
  NoDup (id <$> jobs_file w) →
  fst (getJob jobId w) = Ok (Some job) →
  attempts job + 1 < max_retries job →
  retry_date (clock (ticks w)) job = Some due →
  ∃ w',
    handleJobFailure jobId errorMessage w = (Ok (), w') ∧
    (0 ≤ attempts job →
       due = clock (ticks w) + cfg_backoff_base config ^ (attempts job + 1) * 1000) ∧
    ∀ later,
      jobs_file later = jobs_file w' →
      (∀ next, fst (getNextPendingJob later) = Ok (Some next) → id next = jobId →
         due ≤ clock (ticks later)) ∧
      (due ≤ clock (ticks later) → fst (getNextPendingJob later) ≠ Ok None).
Proof.
  intros Hnodup [index Hfind]%getJob_Some Hbelow Hdate.
  pose proof (find_by_id_Some _ _ _ _ Hfind) as (Hlook & Hid & _).
  destruct (handleJobFailure_returns jobId errorMessage w index job Hfind)
    as [w' Hrun]; [right; by rewrite Hdate|].
  destruct (handleJobFailure_step jobId errorMessage w index job w' Hfind Hrun)
    as (job' & Hfind' & Hjobs & Hatt & Hmax & _ & Hfailed & _ & _ & Hnext & _).
  pose proof (find_by_id_Some _ _ _ _ Hfind') as (Hlook' & Hid' & _).
  assert (state job' = FAILED) as Hstate by (apply Hfailed; lia).
  destruct (Hnext Hstate) as [_ Hnext']. rewrite Hdate in Hnext'.
  assert (NoDup (id <$> jobs_file w')) as Hnodup'.
  { rewrite Hjobs, list_fmap_insert, list_insert_id; [done|].
    rewrite list_lookup_fmap, Hlook. simpl. congruence. }
  assert (job' ∈ jobs_file w') as Hin' by by eapply list_elem_of_lookup_2.
  exists w'. split; [done|]. split.
  { intros Hnonneg. rewrite retry_date_nonneg in Hdate by lia. simpl in Hdate.
    case_bool_decide; congruence. }
  intros later Hsame. split.
  - intros next Hgot Hnid.
    apply getNextPendingJob_Some in Hgot as (Hin & _ & Hdue).
    rewrite Hsame in Hin.
    assert (next = job') as -> by (eapply unique_by_id; [done..|congruence]).
    rewrite Hnext' in Hdue. destruct Hdue as [[=]|(t & [= <-] & Hle)]. done.
  - intros Hdue Hnone. eapply (getNextPendingJob_None _ Hnone).
    + rewrite Hsame. exact Hin'.
    + split; [by right|]. right. eauto.
Qed.

(** X10. After [retryDeadJob] has put a Dead job back, a claim issued at any
    later time finds an eligible job, and a second [retryDeadJob] on the
    same id is refused and changes nothing. *)
Theorem retried_job_is_claimable_once jobId w job :
  fst (getJob jobId w) = Ok (Some job) →
  state job = DEAD →
  ∃ w',
    retryDeadJob jobId w = (Ok true, w') ∧
    (∀ later, jobs_file later = jobs_file w' →
              fst (getNextPendingJob later) ≠ Ok None) ∧
    retryDeadJob jobId w' = (Ok false, w').
Proof.
  intros [index Hfind]%getJob_Some Hdead.
  pose proof (find_by_id_Some _ _ _ _ Hfind) as (Hlook & Hid & _).
  rewrite retryDeadJob_run, Hfind.
  rewrite bool_decide_false by (intros Hne; by apply Hne).
  eexists. split; [reflexivity|].
  match goal with |- context [<[index := ?new]> (jobs_file w)] =>
    set (job' := new) end.
  assert (list_find (λ j, id j = jobId) (<[index := job']> (jobs_file w))
          = Some (index, job')) as Hfind' by by eapply find_by_id_insert.
  split.
  - intros later Hsame Hnone. eapply (getNextPendingJob_None _ Hnone).
    + rewrite Hsame. cbn [jobs_file].
      apply find_by_id_Some in Hfind' as (Hlook' & _).
      by eapply list_elem_of_lookup_2.
    + split; [by left|by left].
  - rewrite retryDeadJob_run. cbn [jobs_file]. rewrite Hfind'.
    by rewrite bool_decide_true.
Qed.

Lemma resetStuckJobs_loop_clean (jobs : list Job) resetCount w :
  Forall (λ j, state j ≠ PROCESSING) jobs →
  resetStuckJobs_loop jobs resetCount w = (Ok resetCount, w).
Proof.
  induction 1 as [|job rest Hjob _ IH]; simpl; [done|].
  by rewrite bool_decide_false.
Qed.

(** X11. [resetStuckJobs] on a store without Processing jobs returns 0 and
    changes nothing, not even a time stamp; and in a store with unique ids
    one pass recovers everything: a second pass right after returns 0 and
    changes nothing. *)
Theorem resetStuckJobs_second_pass w :
  ((∀ j, j ∈ jobs_file w → state j ≠ PROCESSING) →
     resetStuckJobs w = (Ok 0%nat, w)) ∧
  (NoDup (id <$> jobs_file w) →
     ∃ resetCount w',
       resetStuckJobs w = (Ok resetCount, w') ∧
       resetStuckJobs w' = (Ok 0%nat, w')).
Proof.
  assert (∀ w0, (∀ j, j ∈ jobs_file w0 → state j ≠ PROCESSING) →
                resetStuckJobs w0 = (Ok 0%nat, w0)) as Hclean.
  { intros w0 Hnone. unfold resetStuckJobs, mbind, M_bind, readJobs.
    apply resetStuckJobs_loop_clean, Forall_forall, Hnone. }
  split; [apply Hclean|].
  intros Hnodup.
  destruct (resetStuckJobs_loop_spec (jobs_file w) [] [] 0 w)
    as (w' & jobs' & Hrun & Hfile & Hjobs & _); [done|constructor|done|].
  simpl in Hfile. rewrite <- Hfile in Hjobs.
  exists (0 + length (filter (λ j, state j = PROCESSING) (jobs_file w)))%nat, w'.
  split; [exact Hrun|]. apply Hclean.
  intros j [i Hi]%list_elem_of_lookup_1.
  destruct (Forall2_lookup_r _ _ _ _ _ Hjobs Hi) as (old & _ & Hold).
  by eapply orphan_reset_not_processing.
Qed.

End ManagerProperties.

(** ** Further properties of the workers and the pool *)

Section PoolProperties.

Context {env : Env}.

Implicit Types (w : World) (p : Pool) (wk : Worker).

Lemma resetStuckJobs_loop_ok jobs resetCount w :
  ∃ n w', resetStuckJobs_loop jobs resetCount w = (Ok n, w').
Proof.
  revert resetCount w. induction jobs as [|job rest IH]; intros resetCount w;
    simpl; [eauto|].
  case_bool_decide; [|apply IH].
  unfold mbind, M_bind.
  match goal with |- context [updateJob ?i ?u w] =>
    destruct (updateJob_ok i u w) as (b & w1 & ->)
  end.
  apply IH.
Qed.

Lemma resetStuckJobs_ok w : ∃ resetCount w', resetStuckJobs w = (Ok resetCount, w').
Proof.
  unfold resetStuckJobs, mbind, M_bind, readJobs. apply resetStuckJobs_loop_ok.
Qed.

Lemma workers_set_nonempty wk (ws : list Worker) : workers_set wk ws ≠ [].
Proof.
  unfold workers_set. destruct (list_find _ _) as [[i x]|] eqn:Hfind.
  - apply list_find_Some in Hfind as (Hlook & _).
    destruct ws; [done|]. by destruct i.
  - by destruct ws.
Qed.

Lemma spawn_nonempty count (ws ws' : list Worker) w w' :
  count ≠ 0%nat ∨ ws ≠ [] →
  spawn count ws w = (Ok ws', w') →
  ws' ≠ [].
Proof.
  revert ws w. induction count as [|n IH]; intros ws w Hsome.
  - simpl. intros [= <- <-]. by destruct Hsome.
  - simpl. unfold mbind, M_bind. simpl. apply IH. right.
    apply workers_set_nonempty.
Qed.

Lemma stopped_pool_has_no_workers p : pool_isRunning p = false → workers p = [].
Proof.
  unfold pool_isRunning. intros [Hlen _]%orb_false_iff.
  apply bool_decide_eq_false in Hlen.
  destruct (workers p); [done|]. simpl in Hlen. lia.
Qed.

(** X12. [start] refuses a count below 1, and refuses to start while the
    manager has workers or the pid file exists; in both cases it throws
    before anything is touched, orphan recovery included. On a stopped
    pool [start] resets the stuck jobs, creates its workers and writes the
    pid file, and sets up the shutdown handlers last: it returns in a
    runtime that defines [Deno] and throws the [ReferenceError] of
    [setupShutdownHandlers] in one that does not. Either way the pool it
    leaves has workers and a pid file: starting again is refused, also by
    a manager created afterwards over the same directory, which has no
    workers of its own and finds the file. *)
Theorem start_refusals count p :
  (count < 1 → start count p = (Throw "Worker count must be at least 1", p)) ∧
  (1 ≤ count → pool_isRunning p = true →
     start count p = (Throw "Workers are already running. Stop them first.", p)) ∧
  (1 ≤ count → pool_isRunning p = false →
     ∃ p', start count p =
             (if deno then Ok () else Throw "Deno is not defined", p') ∧
           pidFile p' = true ∧
           workers p' ≠ [] ∧
           ∀ again, 1 ≤ again →
             start again p' =
               (Throw "Workers are already running. Stop them first.", p') ∧
             start again (stopped_pool_with_pidFile (world p') (pidFile p')) =
               (Throw "Workers are already running. Stop them first.",
                stopped_pool_with_pidFile (world p') (pidFile p'))).
Proof.
  unfold start. split_and!.
  - intros Hcount. by rewrite bool_decide_true.
  - intros Hcount Hrunning. rewrite bool_decide_false by lia. by rewrite Hrunning.
  - intros Hcount Hstopped. rewrite bool_decide_false by lia. rewrite Hstopped.
    unfold mbind, M_bind.
    destruct (resetStuckJobs_ok (world p)) as (n & w1 & ->).
    destruct (spawn_run (Z.to_nat count) (workers p) w1)
      as (ws & w2 & Hspawn & _ & _).
    { by rewrite (stopped_pool_has_no_workers p). }
    rewrite Hspawn.
    eexists. split; [reflexivity|]. split; [done|]. split.
    { simpl. eapply spawn_nonempty; [|exact Hspawn]. left. lia. }
    intros again Hagain. rewrite !bool_decide_false by lia.
    unfold pool_isRunning. simpl. by rewrite orb_true_r.
Qed.

(** A worker that is executing a job always settles: an error thrown by
    [processJob] counts as a failed job. *)
Lemma worker_resume_executing wk jobId job w :
  suspended wk = Executing jobId job →
  ∃ succeeded w', worker_resume wk w = (Ok (settle wk succeeded), w').
Proof.
  intros Hexec. unfold worker_resume, try_catch, mbind, M_bind. rewrite Hexec.
  destruct (processJob_end jobId (execute (command job)) w) as [[b|e] w1]; eauto.
Qed.

(** X13. Stopping. [stop] on a manager without workers returns at once and
    changes nothing, so an existing pid file stays and [start] keeps being
    refused. [stop] on a manager with workers marks every worker as
    stopping and not running; from then on a worker with no call in flight
    does nothing when its poll comes, and a worker that is executing a job
    reports the result and settles as stopping, without a job. When [stop]
    has completed the pool is no longer running. *)
Theorem stop_lets_jobs_finish p :
  (workers p = [] →
     stop_begin p = None ∧
     (pidFile p = true → ∀ count, 1 ≤ count →
        start count p = (Throw "Workers are already running. Stop them first.", p))) ∧
  (workers p ≠ [] →
     ∃ p1,
       stop_begin p = Some p1 ∧
       isShuttingDown p1 = true ∧ world p1 = world p ∧ pidFile p1 = pidFile p ∧
       pool_isRunning (stop_end p1) = false ∧
       ∀ wk, wk ∈ workers p1 →
         w_state wk = stopping ∧ isRunning wk = false ∧
         (suspended wk = Ready → ∀ w, worker_resume wk w = (Ok wk, w)) ∧
         (∀ jobId job, suspended wk = Executing jobId job → ∀ w,
            ∃ wk' w', worker_resume wk w = (Ok wk', w') ∧
                      w_state wk' = stopping ∧ currentJobId wk' = None ∧
                      suspended wk' = Ready)).
Proof.
  unfold stop_begin. split.
  - intros Hnone. rewrite Hnone. split; [done|].
    intros Hpid count Hcount. unfold start.
    rewrite bool_decide_false by lia.
    unfold pool_isRunning. by rewrite Hpid, orb_true_r.
  - intros Hsome. rewrite bool_decide_false by (by destruct (workers p)).
    eexists. split; [reflexivity|]. simpl. split_and!; try done.
    intros wk (wk0 & -> & _)%list_elem_of_fmap. simpl. split_and!; try done.
    + intros Hready w. unfold worker_resume. simpl. by rewrite Hready.
    + intros jobId job Hexec w.
      match goal with |- context [worker_resume ?stopped w] =>
        destruct (worker_resume_executing stopped jobId job w Hexec)
          as (succeeded & w' & ->)
      end.
      by eexists _, _.
Qed.

Lemma worker_resume_consistent wk w wk' w' :
  worker_consistent wk →
  worker_resume wk w = (Ok wk', w') →
  worker_consistent wk' ∧ w_id wk' = w_id wk.
Proof.
  intros [Hrunning Hphase]. unfold worker_resume.
  destruct (suspended wk) as [|job|jobId job] eqn:Hsusp.
  - destruct Hphase as [Hidle Hnojob]. rewrite Hrunning. simpl.
    rewrite bool_decide_false by (rewrite Hidle; by intros Hne).
    unfold mbind, M_bind, getNextJob. rewrite getNextPendingJob_run.
    destruct (head _) as [job|]; intros [= <- <-].
    + split; [|done]. by split.
    + split; [|done]. split; [done|]. by rewrite Hsusp.
  - destruct Hphase as [Hbusy Hjob]. unfold try_catch, mbind, M_bind.
    rewrite processJob_begin_run.
    destruct (list_find _ _) as [[index found]|] eqn:Hfind; intros [= <- <-].
    + apply find_by_id_Some in Hfind as (_ & Hid & _).
      split; [|done]. by split.
    + split; [|done]. split; [done|]. simpl. by rewrite Hrunning.
  - unfold try_catch, mbind, M_bind.
    destruct (processJob_end jobId (execute (command job)) w) as [[b|e] w1];
      intros [= <- <-]; (split; [|done]); (split; [done|]); simpl;
      by rewrite Hrunning.
Qed.

(** X14. Along every interleaving of the workers of a pool, each worker
    keeps its id and is, between two resumptions, either idle with no
    current job, or busy with exactly the job it selected: while it executes
    a job, [currentJobId] is the id of that job. The set of workers, the pid
    file and the shutdown flag do not change. *)
Theorem workers_stay_consistent p p' :
  Forall worker_consistent (workers p) →
  rtc pool_step p p' →
  Forall worker_consistent (workers p') ∧
  w_id <$> workers p' = w_id <$> workers p ∧
  pidFile p' = pidFile p ∧
  isShuttingDown p' = isShuttingDown p.
Proof.
  intros Hall Hsteps. induction Hsteps as [p|p p1 p2 Hstep _ IH]; [done|].
  destruct Hstep as [p i wk wk' world' Hlook Hrun].
  assert (worker_consistent wk) as Hwk.
  { rewrite Forall_forall in Hall. by eapply Hall, list_elem_of_lookup_2. }
  destruct (worker_resume_consistent _ _ _ _ Hwk Hrun) as [Hwk' Hid].
  destruct IH as (Hall' & Hids & Hpid & Hflag).
  { simpl. by apply Forall_insert. }
  simpl in *. split_and!; try done.
  rewrite Hids, list_fmap_insert. apply list_insert_id.
  by rewrite list_lookup_fmap, Hlook, Hid.
Qed.

Lemma updateJob_prepare_run jobId updates w :
  updateJob_prepare jobId updates w =
  match list_find (λ j, id j = jobId) (jobs_file w) with
  | None => (Ok None, w)
  | Some (index, old) =>
      (Ok (Some (<[index := spread old updates (clock (ticks w))]> (jobs_file w))),
       {| jobs_file := jobs_file w; ticks := S (ticks w); uuids := uuids w |})
  end.
Proof.
  unfold updateJob_prepare, mbind, M_bind, readJobs. simpl.
  by destruct (list_find _ _) as [[index old]|].
Qed.

(** X15. [updateJob] reads the file and writes it back in two separate
    critical sections. Run without interruption the two halves are
    [updateJob]. When another process appends a job with a new id between
    them, the write puts back the array read before: the file has as many
    records as before the append and the appended job is gone. *)
Theorem update_overwrites_concurrent_append jobId updates newJob w prepared w1 :
  updateJob_prepare jobId updates w = (Ok (Some prepared), w1) →
  p_id updates = None →
  (∀ j, j ∈ jobs_file w → id j ≠ id newJob) →
  (∃ w', writeJobs prepared w1 = (Ok (), w') ∧
         updateJob jobId updates w = (Ok true, w')) ∧
  ∃ w2 w3,
    addJob newJob w1 = (Ok (), w2) ∧
    fst (getJob (id newJob) w2) = Ok (Some newJob) ∧
    writeJobs prepared w2 = (Ok (), w3) ∧
    length (jobs_file w3) = length (jobs_file w) ∧
    fst (getJob (id newJob) w3) = Ok None.
Proof.
  rewrite updateJob_prepare_run.
  destruct (list_find _ _) as [[index old]|] eqn:Hfind; [|done].
  intros [= <- <-] Hid Hfresh.
  pose proof (find_by_id_Some _ _ _ _ Hfind) as (Hlook & Hold & _).
  split.
  - eexists. split; [reflexivity|]. by rewrite updateJob_run, Hfind.
  - do 2 eexists. split; [reflexivity|]. split.
    { apply getJob_Some. eexists. by apply find_by_id_last. }
    split; [reflexivity|]. simpl. split; [apply length_insert|].
    rewrite ?getJob_run. simpl. rewrite find_by_id_absent; [done|].
    intros j [k Hk]%list_elem_of_lookup_1.
    apply list_lookup_insert_Some in Hk as [(-> & <- & _)|[_ Hk]].
    + unfold spread. simpl. rewrite Hid. simpl.
      by eapply Hfresh, list_elem_of_lookup_2.
    + by eapply Hfresh, list_elem_of_lookup_2.
Qed.

End PoolProperties.

(** ** Properties of the lock file *)

Lemma lock_phase_update (phases0 : list LockPhase) pid phase :
  (pid < length phases0)%nat → <[pid := phase]> phases0 !! pid = Some phase.
Proof. apply list_lookup_insert_eq. Qed.

(** X18. The lock does not exclude: whenever the lock file is absent and
    two processes are about to call a storage method, there is a run in
    which both find no lock file, both write it, and both are in their
    critical sections at the same time. *)
Theorem lock_admits_two_holders s pid1 pid2 :
  pid1 ≠ pid2 →
  lockFile s = None →
  phases s !! pid1 = Some Outside →
  phases s !! pid2 = Some Outside →
  ∃ s',
    rtc lock_step s s' ∧
    phases s' !! pid1 = Some Critical ∧
    phases s' !! pid2 = Some Critical ∧
    ∀ pid, pid ≠ pid1 → pid ≠ pid2 → phases s' !! pid = phases s !! pid.
Proof.
  intros Hne Hfree H1 H2.
  assert (pid1 < length (phases s))%nat as Hlt1 by by eapply lookup_lt_Some.
  assert (pid2 < length (phases s))%nat as Hlt2 by by eapply lookup_lt_Some.
  eexists. split.
  - eapply rtc_l; [by apply (lock_enter s pid1)|].
    eapply rtc_l.
    { apply (lock_enter _ pid2). simpl. by rewrite list_lookup_insert_ne. }
    eapply rtc_l.
    { apply (lock_exists_false _ pid1); simpl; [|done].
      rewrite list_lookup_insert_ne by done.
      by apply list_lookup_insert_eq. }
    eapply rtc_l.
    { apply (lock_exists_false _ pid2); simpl; [|done].
      rewrite list_lookup_insert_ne by done.
      apply list_lookup_insert_eq. by rewrite length_insert. }
    eapply rtc_l.
    { apply (lock_write _ pid1); simpl.
      rewrite list_lookup_insert_ne by done.
      apply list_lookup_insert_eq. by rewrite !length_insert. }
    eapply rtc_l.
    { apply (lock_write _ pid2); simpl.
      rewrite list_lookup_insert_ne by done.
      apply list_lookup_insert_eq. by rewrite !length_insert. }
    apply rtc_refl.
  - simpl. split_and!.
    + rewrite list_lookup_insert_ne by done.
      apply list_lookup_insert_eq. by rewrite !length_insert.
    + apply list_lookup_insert_eq. by rewrite !length_insert.
    + intros pid Hp1 Hp2. by rewrite !list_lookup_insert_ne.
Qed.

(** X19. A process that gives up waiting for the lock removes it: when
    [acquireLock] times out in a process while another process is in its
    critical section, the [catch] block deletes the lock file of that other
    process, which stays in its critical section; a third process can then
    take the lock and enter its own. *)
Theorem timeout_removes_foreign_lock s owner waiting third :
  owner ≠ waiting → owner ≠ third → waiting ≠ third →
  lockFile s = Some owner →
  phases s !! owner = Some Critical →
  phases s !! waiting = Some Polling →
  phases s !! third = Some Polling →
  ∃ s1 s2,
    lock_step s s1 ∧
    lockFile s1 = None ∧
    phases s1 !! owner = Some Critical ∧
    phases s1 !! waiting = Some Outside ∧
    rtc lock_step s1 s2 ∧
    phases s2 !! owner = Some Critical ∧
    phases s2 !! third = Some Critical.
Proof.
  intros Hne1 Hne2 Hne3 Hlock Howner Hwaiting Hthird.
  assert (waiting < length (phases s))%nat as Hlt1 by by eapply lookup_lt_Some.
  assert (third < length (phases s))%nat as Hlt2 by by eapply lookup_lt_Some.
  do 2 eexists. split; [by eapply (lock_timeout s waiting owner)|].
  simpl. split; [unfold releaseLock; by rewrite Hlock|].
  split; [by rewrite list_lookup_insert_ne|].
  split; [by apply list_lookup_insert_eq|].
  split.
  - eapply rtc_l.
    { apply (lock_exists_false _ third); simpl.
      - by rewrite list_lookup_insert_ne.
      - unfold releaseLock. by rewrite Hlock. }
    eapply rtc_l.
    { apply (lock_write _ third); simpl.
      apply list_lookup_insert_eq. by rewrite length_insert. }
    apply rtc_refl.
  - simpl. split.
    + by rewrite !list_lookup_insert_ne.
    + apply list_lookup_insert_eq. by rewrite !length_insert.
Qed.

(** ** The further properties at concrete inputs *)

Lemma unknown_id_changes_nothing_witness :
  (∀ j, j ∈ jobs_file one_failing_job → id j ≠ "Z") ∧
  processJob (env := sample_env) "Z" "B" one_failing_job = (Ok false, one_failing_job) ∧
  handleJobFailure (env := sample_env) "Z" "boom" one_failing_job
    = (Ok (), one_failing_job).
Proof.
  assert (∀ j, j ∈ jobs_file one_failing_job → id j ≠ "Z") as Habsent.
  { intros j Hj. vm_compute in Hj. apply list_elem_of_singleton in Hj. by subst. }
  split; [exact Habsent|].
  exact (unknown_id_changes_nothing (env := sample_env) "Z" "B" "boom"
           one_failing_job Habsent).
Defined.

(** Job A, whose command is ["exit 1"], run once by worker B: the
    failure is reported at time 3000 and the retry is due at 5000. *)
Lemma processJob_outcome_witness :
  fst (getJob "A" one_failing_job) = Ok (Some (enqueued_job 3)) ∧
  ∃ index job' outcome w',
    processJob (env := sample_env) "A" "B" one_failing_job = (outcome, w') ∧
    jobs_file one_failing_job !! index = Some (enqueued_job 3) ∧
    jobs_file w' = <[index := job']> (jobs_file one_failing_job) ∧
    fst (getJob "A" w') = Ok (Some job') ∧
    identity job' = identity (enqueued_job 3) ∧
    output job' = None ∧
    (false = true →
       outcome = Ok true ∧ state job' = COMPLETED ∧ worker_id job' = None ∧
       attempts job' = 0 ∧
       error_message job' = None) ∧
    (false = false → 0 + 1 >= 3 →
       outcome = Ok false ∧ state job' = DEAD ∧ worker_id job' = None ∧
       attempts job' = 0 + 1 ∧
       error_message job' = Some "Command exited with code 1" ∧
       next_retry_at job' = None) ∧
    (false = false → 0 + 1 < 3 →
       outcome = Ok false ∧ state job' = FAILED ∧ worker_id job' = None ∧
       attempts job' = 0 + 1 ∧
       error_message job' = Some "Command exited with code 1" ∧
       next_retry_at job' = Some 5000).
Proof.
  split; [reflexivity|].
  exact (processJob_outcome (env := sample_env) "A" "B" one_failing_job
           (enqueued_job 3) eq_refl).
Defined.

(** Two eligible jobs with the same [created_at]: the one stored first. *)
Lemma getNextPendingJob_first_among_equals_witness :
  fst (getNextPendingJob (env := sample_env) tied_store) = Ok (Some (enqueued_job 3)) ∧
  ∃ index,
    jobs_file tied_store !! index = Some (enqueued_job 3) ∧
    ∀ k j, (k < index)%nat → jobs_file tied_store !! k = Some j →
           eligible 2000 j → created_at (enqueued_job 3) < created_at j.
Proof.
  split; [reflexivity|].
  exact (getNextPendingJob_first_among_equals (env := sample_env) tied_store
           (enqueued_job 3) eq_refl).
Defined.

(** Job A fails at time 3000 with [backoff_base] 2: no claim before 5000. *)
Lemma failed_job_waits_for_backoff_witness :
  NoDup (id <$> jobs_file crashed_store) ∧
  fst (getJob "A" crashed_store) = Ok (Some claimed_job) ∧
  attempts claimed_job + 1 < max_retries claimed_job ∧
  retry_date (env := sample_env) 3000 claimed_job = Some 5000 ∧
  ∃ w',
    handleJobFailure (env := sample_env) "A" "boom" crashed_store = (Ok (), w') ∧
    (0 ≤ 0 → 5000 = 3000 + 2 ^ (0 + 1) * 1000) ∧
    ∀ later,
      jobs_file later = jobs_file w' →
      (∀ next, fst (getNextPendingJob (env := sample_env) later) = Ok (Some next) →
         id next = "A" → 5000 ≤ 1000 * Z.of_nat (ticks later)) ∧
      (5000 ≤ 1000 * Z.of_nat (ticks later) →
       fst (getNextPendingJob (env := sample_env) later) ≠ Ok None).
Proof.
  assert (NoDup (id <$> jobs_file crashed_store)) as Hnodup.
  { apply (bool_decide_unpack _). vm_compute. exact I. }
  assert (attempts claimed_job + 1 < max_retries claimed_job) as Hbelow by done.
  split_and!; [exact Hnodup|reflexivity|exact Hbelow|reflexivity|].
  exact (failed_job_waits_for_backoff (env := sample_env) "A" "boom" crashed_store
           claimed_job 5000 Hnodup eq_refl Hbelow eq_refl).
Defined.

Lemma retried_job_is_claimable_once_witness :
  ∃ job,
    fst (getJob "A" dead_store) = Ok (Some job) ∧
    state job = DEAD ∧
    ∃ w',
      retryDeadJob (env := sample_env) "A" dead_store = (Ok true, w') ∧
      (∀ later, jobs_file later = jobs_file w' →
                fst (getNextPendingJob (env := sample_env) later) ≠ Ok None) ∧
      retryDeadJob (env := sample_env) "A" w' = (Ok false, w').
Proof.
  eexists. split; [vm_compute; reflexivity|]. split; [reflexivity|].
  exact (retried_job_is_claimable_once (env := sample_env) "A" dead_store _
           eq_refl eq_refl).
Defined.

(** The run of C1 again: both workers stay consistent on their own. *)
Lemma workers_stay_consistent_witness :
  Forall worker_consistent (workers two_workers) ∧
  rtc (pool_step (env := sample_env)) two_workers
    (run_schedule (env := sample_env) [0; 1; 0; 1]%nat two_workers) ∧
  Forall worker_consistent
    (workers (run_schedule (env := sample_env) [0; 1; 0; 1]%nat two_workers)) ∧
  w_id <$> workers (run_schedule (env := sample_env) [0; 1; 0; 1]%nat two_workers)
    = w_id <$> workers two_workers ∧
  pidFile (run_schedule (env := sample_env) [0; 1; 0; 1]%nat two_workers)
    = pidFile two_workers ∧
  isShuttingDown (run_schedule (env := sample_env) [0; 1; 0; 1]%nat two_workers)
    = isShuttingDown two_workers.
Proof.
  assert (Forall worker_consistent (workers two_workers)) as Hall.
  { vm_compute. by repeat constructor. }
  pose proof (run_schedule_reachable (env := sample_env) [0; 1; 0; 1]%nat two_workers)
    as Hrun.
  split; [exact Hall|]. split; [exact Hrun|].
  exact (workers_stay_consistent (env := sample_env) two_workers _ Hall Hrun).
Defined.

(** Resetting job A of the crashed store while job B is being enqueued. *)
Lemma update_overwrites_concurrent_append_witness :
  ∃ prepared w1,
    updateJob_prepare (env := sample_env) "A"
      (mkPartial None None (Some PENDING) None None None None None None None (Some None))
      crashed_store = (Ok (Some prepared), w1) ∧
    (∀ j, j ∈ jobs_file crashed_store → id j ≠ id second_job) ∧
    (∃ w', writeJobs prepared w1 = (Ok (), w') ∧
           updateJob (env := sample_env) "A"
             (mkPartial None None (Some PENDING) None None None None None None None
                (Some None))
             crashed_store = (Ok true, w')) ∧
    ∃ w2 w3,
      addJob second_job w1 = (Ok (), w2) ∧
      fst (getJob "B" w2) = Ok (Some second_job) ∧
      writeJobs prepared w2 = (Ok (), w3) ∧
      length (jobs_file w3) = length (jobs_file crashed_store) ∧
      fst (getJob "B" w3) = Ok None.
Proof.
  assert (∀ j, j ∈ jobs_file crashed_store → id j ≠ id second_job) as Hfresh.
  { intros j Hj. vm_compute in Hj. apply list_elem_of_singleton in Hj. by subst. }
  do 2 eexists. split; [vm_compute; reflexivity|]. split; [exact Hfresh|].
  exact (update_overwrites_concurrent_append (env := sample_env) "A"
           (mkPartial None None (Some PENDING) None None None None None None None
              (Some None))
           second_job crashed_store _ _ eq_refl eq_refl Hfresh).
Defined.

Lemma lock_admits_two_holders_witness :
  0%nat ≠ 1%nat ∧
  lockFile two_processes = None ∧
  phases two_processes !! 0%nat = Some Outside ∧
  phases two_processes !! 1%nat = Some Outside ∧
  ∃ s',
    rtc lock_step two_processes s' ∧
    phases s' !! 0%nat = Some Critical ∧
    phases s' !! 1%nat = Some Critical ∧
    ∀ pid, pid ≠ 0%nat → pid ≠ 1%nat → phases s' !! pid = phases two_processes !! pid.
Proof.
  assert (0%nat ≠ 1%nat) as Hne by done.
  split_and!; [exact Hne|reflexivity..|].
  exact (lock_admits_two_holders two_processes 0 1 Hne eq_refl eq_refl eq_refl).
Defined.

Lemma timeout_removes_foreign_lock_witness :
  0%nat ≠ 1%nat ∧ 0%nat ≠ 2%nat ∧ 1%nat ≠ 2%nat ∧
  lockFile one_holder_two_waiting = Some 0%nat ∧
  phases one_holder_two_waiting !! 0%nat = Some Critical ∧
  phases one_holder_two_waiting !! 1%nat = Some Polling ∧
  phases one_holder_two_waiting !! 2%nat = Some Polling ∧
  ∃ s1 s2,
    lock_step one_holder_two_waiting s1 ∧
    lockFile s1 = None ∧
    phases s1 !! 0%nat = Some Critical ∧
    phases s1 !! 1%nat = Some Outside ∧
    rtc lock_step s1 s2 ∧
    phases s2 !! 0%nat = Some Critical ∧
    phases s2 !! 2%nat = Some Critical.
Proof.
  assert (0%nat ≠ 1%nat) as H01 by done.
  assert (0%nat ≠ 2%nat) as H02 by done.
  assert (1%nat ≠ 2%nat) as H12 by done.
  split_and!; [exact H01|exact H02|exact H12|reflexivity..|].
  exact (timeout_removes_foreign_lock one_holder_two_waiting 0 1 2 H01 H02 H12
           eq_refl eq_refl eq_refl eq_refl).
Defined.

(** ** Invariants of the store and the listing of the command line *)

Section InvariantProperties.

Context {env : Env}.

Implicit Types (w : World) (job : Job) (jobId : string).

Lemma spawn_ids count (ws : list Worker) w :
  Inj (=) (=) uuid_gen →
  (∀ k, uuid_gen (uuids w + k) ∉ w_id <$> ws) →
  ∃ ws' w',
    spawn count ws w = (Ok ws', w') ∧
    w_id <$> ws' = (w_id <$> ws) ++ (uuid_gen <$> seq (uuids w) count).
Proof.
  intros Hinj. revert ws w. induction count as [|n IH]; intros ws w Hfresh.
  - exists ws, w. simpl. by rewrite app_nil_r.
  - simpl. unfold mbind, M_bind. simpl.
    match goal with |- context [workers_set ?wk ws] => set (worker := wk) end.
    assert (workers_set worker ws = ws ++ [worker]) as ->.
    { unfold workers_set. rewrite (proj2 (list_find_None _ _)); [done|].
      apply Forall_forall. intros x Hx Hid. simpl in Hid.
      apply (Hfresh 0%nat). rewrite Nat.add_0_r, <- Hid.
      by apply list_elem_of_fmap_2. }
    match goal with |- context [spawn n _ ?w1] =>
      destruct (IH (ws ++ [worker]) w1) as (ws' & w' & Hrun & Hids)
    end.
    + intros k. simpl. rewrite fmap_app. simpl. rewrite not_elem_of_app. split.
      * intros Hin. apply (Hfresh (S k)). by rewrite Nat.add_succ_r.
      * intros Heq%list_elem_of_singleton. apply Hinj in Heq. lia.
    + exists ws', w'. split; [exact Hrun|].
      rewrite Hids. simpl. rewrite fmap_app, <- (assoc_L (++)). done.
Qed.

(** X20. When the identifier generator never repeats itself, [start] on a
    stopped pool creates exactly [count] workers, with distinct ids, in the
    order in which the identifiers are drawn after orphan recovery; they
    are the workers of the pool whether [start] then returns or throws
    from [setupShutdownHandlers], which it does exactly when the runtime
    does not define [Deno]. *)
Theorem start_spawns_count count p :
  Inj (=) (=) uuid_gen →
  1 ≤ count →
  pool_isRunning p = false →
  ∃ resetCount recovered p',
    resetStuckJobs (world p) = (Ok resetCount, recovered) ∧
    start count p =
      (if deno then Ok () else Throw "Deno is not defined", p') ∧
    w_id <$> workers p' = uuid_gen <$> seq (uuids recovered) (Z.to_nat count) ∧
    length (workers p') = Z.to_nat count ∧
    NoDup (w_id <$> workers p').
Proof.
  intros Hinj Hcount Hstopped.
  destruct (resetStuckJobs_ok (world p)) as (n & recovered & Hreset).
  destruct (spawn_ids (Z.to_nat count) (workers p) recovered Hinj)
    as (ws & w' & Hspawn & Hids).
  { intros k. rewrite (stopped_pool_has_no_workers p Hstopped). apply not_elem_of_nil. }
  rewrite (stopped_pool_has_no_workers p Hstopped) in Hids. simpl in Hids.
  exists n, recovered. eexists. split; [done|].
  unfold start. rewrite bool_decide_false by lia. rewrite Hstopped.
  unfold mbind, M_bind. rewrite Hreset, Hspawn.
  split; [reflexivity|]. simpl. split; [done|]. split.
  - rewrite <- (length_fmap w_id), Hids, length_fmap. apply length_seq.
  - rewrite Hids. apply NoDup_fmap_2; [done|]. apply NoDup_seq.
Qed.

Lemma identity_ids (jobs jobs' : list Job) :
  identity <$> jobs' = identity <$> jobs → id <$> jobs' = id <$> jobs.
Proof.
  intros Hsame.
  assert (∀ l : list Job, id <$> l = (λ x, x.1.1.1) <$> (identity <$> l)) as Hvia.
  { intros l. rewrite <- list_fmap_compose. done. }
  by rewrite (Hvia jobs'), (Hvia jobs), Hsame.
Qed.

(** X21. Unique ids stay unique: [enqueue] keeps the ids of a store distinct
    when the identifier it draws is not in the store, [deleteJob] and
    [cleanupOldJobs] keep them distinct, and so does every method that keeps
    the identities of the records (the state transitions do). *)
Theorem ids_stay_unique w :
  NoDup (id <$> jobs_file w) →
  (∀ cmd maxRetries,
     (∀ j, j ∈ jobs_file w → id j ≠ uuid_gen (uuids w)) →
     NoDup (id <$> jobs_file (snd (enqueue cmd maxRetries w)))) ∧
  (∀ jobId, NoDup (id <$> jobs_file (snd (deleteJob jobId w)))) ∧
  (∀ setDate daysOld,
     NoDup (id <$> jobs_file (snd (cleanupOldJobs setDate daysOld w)))) ∧
  (∀ A (m : M A), keeps_identity m → NoDup (id <$> jobs_file (snd (m w)))).
Proof.
  intros Hnodup. split_and!.
  - intros cmd maxRetries Hfresh. rewrite enqueue_run.
    destruct (validateCommand cmd); [done|]. simpl.
    rewrite fmap_app. apply NoDup_app. split_and!; [done| |apply NoDup_singleton].
    intros x (j & -> & Hj)%list_elem_of_fmap Hnew.
    rewrite list_fmap_singleton in Hnew. apply list_elem_of_singleton in Hnew.
    by apply (Hfresh j).
  - intros jobId. rewrite deleteJob_run. simpl.
    case_bool_decide; [done|]. simpl.
    eapply sublist_NoDup; [exact Hnodup|apply fmap_sublist, sublist_filter].
  - intros setDate daysOld. rewrite cleanupOldJobs_run. simpl.
    case_bool_decide; [|done].
    eapply sublist_NoDup; [exact Hnodup|apply fmap_sublist, sublist_filter].
  - intros A m Hkeeps. by rewrite (identity_ids _ _ (Hkeeps w)).
Qed.

(** *** Retry accounting *)

Lemma keeps_bind {A B} (Q : Job → Prop) (m : M A) (k : A → M B) :
  keeps Q m → (∀ a, keeps Q (k a)) → keeps Q (m ≫= k).
Proof.
  intros Hm Hk w Hall. specialize (Hm w Hall).
  unfold mbind, M_bind. destruct (m w) as [[a|e] w1]; [|done].
  by apply Hk.
Qed.

Lemma found_job_stored jobId (jobs : list Job) index job (Q : Job → Prop) :
  list_find (λ j, id j = jobId) jobs = Some (index, job) →
  Forall Q jobs → Q job.
Proof.
  intros (Hlook & _)%list_find_Some Hall.
  rewrite Forall_forall in Hall. by eapply Hall, list_elem_of_lookup_2.
Qed.

Lemma keeps_accounting_handleJobFailure jobId errorMessage :
  keeps retry_accounting (handleJobFailure jobId errorMessage).
Proof.
  intros w Hall. rewrite handleJobFailure_run.
  destruct (list_find _ _) as [[index job]|] eqn:Hfind; [|done].
  destruct (found_job_stored _ _ _ _ _ Hfind Hall) as (Hnonneg & _).
  case_bool_decide as Hlast; [|destruct (retry_date _ _); [|done]];
    simpl; (apply Forall_insert; [done|]);
    unfold retry_accounting; simpl; split_and!; try done; try lia;
    intros _; lia.
Qed.

Lemma keeps_accounting_processJob_begin jobId workerId :
  keeps retry_accounting (processJob_begin jobId workerId).
Proof.
  intros w Hall. rewrite processJob_begin_run.
  destruct (list_find _ _) as [[index job]|] eqn:Hfind; [|done].
  destruct (found_job_stored _ _ _ _ _ Hfind Hall) as (Hnonneg & _).
  simpl. apply Forall_insert; [done|].
  unfold retry_accounting. simpl. by split_and!.
Qed.

Lemma keeps_accounting_processJob_end jobId result :
  keeps retry_accounting (processJob_end jobId result).
Proof.
  intros w Hall. apply processJob_end_keeps; [| |done].
  - intros updates w' Hstate Hwid Hattempts _ Hall'.
    apply updateJob_preserves; [done|].
    intros index old Hfind.
    destruct (found_job_stored _ _ _ _ _ Hfind Hall') as (Hnonneg & _).
    unfold retry_accounting, spread. simpl. rewrite Hstate, Hattempts. simpl.
    by split_and!.
  - intros errorMessage w'. apply keeps_accounting_handleJobFailure.
Qed.

Lemma keeps_accounting_resetStuckJobs_loop jobs resetCount :
  keeps retry_accounting (resetStuckJobs_loop jobs resetCount).
Proof.
  revert resetCount. induction jobs as [|job rest IH]; intros resetCount; simpl.
  - by intros w.
  - case_bool_decide; [|apply IH].
    apply keeps_bind; [|intros _; apply IH].
    intros w Hall. apply updateJob_preserves; [done|].
    intros index old Hfind.
    destruct (found_job_stored _ _ _ _ _ Hfind Hall) as (Hnonneg & _).
    unfold retry_accounting. simpl. by split_and!.
Qed.

(** X22. Retry accounting is an invariant of the queue: when in every
    stored record [attempts] is not negative, a Failed job has failed at
    least once and has attempts left ([attempts < max_retries]) and a Dead
    job has failed at least once and has none left
    ([attempts >= max_retries]), the same holds after [enqueue],
    [processJob], [handleJobFailure], [retryDeadJob] and
    [resetStuckJobs]. *)
Theorem retry_accounting_invariant :
  (∀ cmd maxRetries, keeps retry_accounting (enqueue cmd maxRetries)) ∧
  (∀ jobId workerId, keeps retry_accounting (processJob jobId workerId)) ∧
  (∀ jobId errorMessage, keeps retry_accounting (handleJobFailure jobId errorMessage)) ∧
  (∀ jobId, keeps retry_accounting (retryDeadJob jobId)) ∧
  keeps retry_accounting resetStuckJobs.
Proof.
  split_and!.
  - intros cmd maxRetries w Hall. rewrite enqueue_run.
    destruct (validateCommand cmd); [done|]. simpl.
    apply Forall_app. split; [done|]. constructor; [|done].
    unfold retry_accounting. simpl. by split_and!.
  - intros jobId workerId. unfold processJob.
    apply keeps_bind; [apply keeps_accounting_processJob_begin|].
    intros [job|]; [apply keeps_accounting_processJob_end|by intros w].
  - apply keeps_accounting_handleJobFailure.
  - intros jobId w Hall. rewrite retryDeadJob_run.
    destruct (list_find _ _) as [[index job]|]; [|done].
    case_bool_decide; simpl; [done|].
    apply Forall_insert; [done|].
    unfold retry_accounting. simpl. by split_and!.
  - unfold resetStuckJobs. apply keeps_bind; [by intros w|].
    intros jobs. apply keeps_accounting_resetStuckJobs_loop.
Qed.

(** *** [queuectl list] *)

Section SortCorrect.

Context {A : Type} (cmp : A → A → Z) (key : A → Z).
Hypothesis cmp_key : ∀ a b, cmp a b = key a - key b.

Lemma sort_insert_perm x (l : list A) : sort_insert cmp x l ≡ₚ x :: l.
Proof.
  induction l as [|y l IH]; simpl; [done|].
  case_bool_decide; [done|]. rewrite IH. apply Permutation_swap.
Qed.

Lemma sort_perm (l : list A) : sort cmp l ≡ₚ l.
Proof.
  induction l as [|x l IH]; simpl; [done|].
  fold (sort cmp l). by rewrite sort_insert_perm, IH.
Qed.

Lemma sort_insert_sorted x (l : list A) :
  StronglySorted (λ a b, key a ≤ key b) l →
  StronglySorted (λ a b, key a ≤ key b) (sort_insert cmp x l).
Proof.
  induction 1 as [|y l Hsorted IH Hy]; simpl.
  - repeat constructor.
  - case_bool_decide as Hle; rewrite cmp_key in Hle.
    + constructor; [by constructor|].
      constructor; [lia|].
      eapply Forall_impl; [exact Hy|]. simpl. intros z Hz. lia.
    + constructor; [done|].
      rewrite sort_insert_perm. constructor; [lia|done].
Qed.

Lemma sort_sorted (l : list A) :
  StronglySorted (λ a b, key a ≤ key b) (sort cmp l).
Proof.
  induction l as [|x l IH]; simpl; [constructor|].
  by apply sort_insert_sorted.
Qed.

End SortCorrect.

Lemma listJobs_run s w :
  listJobs s w =
  (Ok (match s with
       | Some s => filter (λ j, state j = s) (jobs_file w)
       | None => jobs_file w
       end), w).
Proof. by destruct s. Qed.

Lemma StronglySorted_impl {A} (R R' : A → A → Prop) (l : list A) :
  (∀ a b, R a b → R' a b) → StronglySorted R l → StronglySorted R' l.
Proof.
  intros Himpl. induction 1 as [|x l _ IH Hx]; constructor; [done|].
  eapply Forall_impl; [exact Hx|]. apply Himpl.
Qed.

Lemma slice_to_take {A} (limit : option Z) (l : list A) :
  ∃ m, slice_to limit l = take m l ∧
       (∀ n, limit = Some n → 0 ≤ n → m = Z.to_nat n) ∧
       (∀ n, limit = Some n → n < 0 → m = (length l - Z.to_nat (- n))%nat) ∧
       (limit = None → m = 0%nat).
Proof.
  destruct limit as [n|]; simpl.
  - case_bool_decide.
    + eexists. split; [done|]. split_and!; [intros ? [= <-]; lia| |done].
      intros ? [= <-] _. lia.
    + eexists. split; [done|]. split_and!; [by intros ? [= <-]| |done].
      intros ? [= <-]. lia.
  - exists 0%nat. by rewrite take_0.
Qed.

(** X23. [queuectl list] prints jobs of the store (of the given state,
    when one is given), newest first. With a limit that is not negative it
    prints that many rows, or all jobs when there are fewer, and no job it
    leaves out is newer than a job it prints. A negative limit [-k] leaves
    out the [k] oldest jobs instead, and a limit that is not a number
    prints no row. The store is not changed. *)
Theorem cli_list_newest_first s limit w :
  ∃ listing shown rest,
    listJobs s w = (Ok listing, w) ∧
    cli_list s limit w = (Ok shown, w) ∧
    shown ++ rest ≡ₚ listing ∧
    StronglySorted (λ a b, created_at b ≤ created_at a) shown ∧
    (∀ x y, x ∈ shown → y ∈ rest → created_at y ≤ created_at x) ∧
    (∀ j, j ∈ shown → j ∈ jobs_file w ∧ ∀ st, s = Some st → state j = st) ∧
    (∀ n, limit = Some n → 0 ≤ n →
          length shown = Nat.min (Z.to_nat n) (length listing)) ∧
    (∀ n, limit = Some n → n < 0 →
          length shown = (length listing - Z.to_nat (- n))%nat) ∧
    (limit = None → shown = []).
Proof.
  set (listing := match s with
                  | Some st => filter (λ j, state j = st) (jobs_file w)
                  | None => jobs_file w
                  end).
  exists listing. unfold cli_list, mbind, M_bind. rewrite listJobs_run.
  fold listing.
  assert (∀ j, j ∈ listing → j ∈ jobs_file w ∧ ∀ st, s = Some st → state j = st)
    as Hlisting.
  { intros j Hj. unfold listing in Hj. destruct s as [st|].
    - apply list_elem_of_filter in Hj as [Hst Hj]. split; [done|].
      by intros ? [= <-].
    - split; [done|]. by intros. }
  case_bool_decide as Hempty.
  - exists [], []. apply nil_length_inv in Hempty. rewrite Hempty.
    split_and!; try done.
    + constructor.
    + by intros x y Hx%elem_of_nil.
    + by intros j Hj%elem_of_nil.
    + intros n _ _. simpl. lia.
  - set (sorted := sort (λ a b, created_at b - created_at a) listing).
    assert (sorted ≡ₚ listing) as Hperm by apply sort_perm.
    assert (StronglySorted (λ a b, created_at b ≤ created_at a) sorted) as Hsorted.
    { eapply StronglySorted_impl;
        [|apply (sort_sorted _ (λ j, - created_at j)); intros a b; lia].
      simpl. intros a b. lia. }
    destruct (slice_to_take limit sorted) as (m & -> & Hpos & Hneg & Hnan).
    exists (take m sorted), (drop m sorted).
    rewrite <- (take_drop m sorted) in Hsorted.
    apply StronglySorted_app in Hsorted as (Hcross & Hshown & _).
    split_and!; try done.
    + by rewrite take_drop.
    + intros j Hj. apply Hlisting. rewrite <- Hperm.
      by apply (subseteq_take m sorted).
    + intros n Hn Hle. rewrite length_take, (Hpos n Hn Hle).
      by rewrite (Permutation_length Hperm).
    + intros n Hn Hlt. rewrite length_take, (Hneg n Hn Hlt).
      rewrite (Permutation_length Hperm). lia.
    + intros Hn. by rewrite (Hnan Hn), take_0.
Qed.

End InvariantProperties.

Lemma tally_inj : Inj (=) (=) tally.
Proof.
  intros n. induction n as [|n IH]; intros [|m] Heq; simpl in Heq; try done.
  injection Heq as Heq. by rewrite (IH m Heq).
Qed.

(** Two workers started over the store with job A. *)
Lemma start_spawns_count_witness :
  Inj (=) (=) tally ∧
  1 ≤ 2 ∧
  pool_isRunning (stopped_pool one_failing_job) = false ∧
  ∃ resetCount recovered p',
    resetStuckJobs (env := tally_env) (world (stopped_pool one_failing_job))
      = (Ok resetCount, recovered) ∧
    start (env := tally_env) 2 (stopped_pool one_failing_job) = (Ok (), p') ∧
    w_id <$> workers p' = tally <$> seq (uuids recovered) (Z.to_nat 2) ∧
    length (workers p') = Z.to_nat 2 ∧
    NoDup (w_id <$> workers p').
Proof.
  assert (1 ≤ 2) as Hcount by done.
  split_and!; [exact tally_inj|exact Hcount|reflexivity|].
  exact (start_spawns_count (env := tally_env) 2 (stopped_pool one_failing_job)
           tally_inj Hcount eq_refl).
Defined.

Lemma ids_stay_unique_witness :
  NoDup (id <$> jobs_file one_failing_job) ∧
  (∀ cmd maxRetries,
     (∀ j, j ∈ jobs_file one_failing_job → id j ≠ "B") →
     NoDup (id <$> jobs_file (snd (enqueue (env := sample_env) cmd maxRetries
                                     one_failing_job)))) ∧
  (∀ jobId, NoDup (id <$> jobs_file (snd (deleteJob jobId one_failing_job)))) ∧
  (∀ setDate daysOld,
     NoDup (id <$> jobs_file (snd (cleanupOldJobs (env := sample_env) setDate daysOld
                                     one_failing_job)))) ∧
  (∀ A (m : M A), keeps_identity m →
     NoDup (id <$> jobs_file (snd (m one_failing_job)))).
Proof.
  assert (NoDup (id <$> jobs_file one_failing_job)) as Hnodup.
  { apply (bool_decide_unpack _). vm_compute. exact I. }
  split; [exact Hnodup|].
  exact (ids_stay_unique (env := sample_env) one_failing_job Hnodup).
Defined.
